(** * clifford.tools.g3c: grade projection, rotor square roots, interpolation

    A shallow embedding of [clifford/tools/g3c/__init__.py].  Coefficient
    arrays are lists of scalars; Python exceptions are an error monad; the
    algebra backend ([layout.gmt_func] and friends, the [MultiVector] class)
    is an explicit interface. *)

From Stdlib Require Import String.
From Stdlib Require Import List ZArith Bool Lia Permutation.
From Stdlib Require Import Floats.
From Stdlib Require Import Reals Lra.
Import ListNotations.

Set Implicit Arguments.

(** ** Exceptions *)

Inductive exn : Type :=
| ValueError (msg : string)
| IndexError (msg : string)
| ZeroDivisionError (msg : string).

Inductive result (A : Type) : Type :=
| Ok (a : A)
| Raise (e : exn).

Arguments Ok {A} a.
Arguments Raise {A} e.

Definition bind {A B : Type} (m : result A) (k : A -> result B) : result B :=
  match m with
  | Ok a => k a
  | Raise e => Raise e
  end.

Notation "x <- m ;; k" := (bind m (fun x => k))
  (at level 61, m at next level, right associativity).

(** ** Scalars

    The source computes on IEEE binary64 numbers.  The arithmetic it uses is
    gathered in one interface with two instances: [float] (what the code runs
    on) and [R] (the exact arithmetic its algebraic identities are stated in). *)

Class Scalar (K : Type) : Type := {
  of_Z : Z -> K;                 (* a Python int used as a number *)
  lit_1e_10 : K;                 (* the literal 0.0000000001 *)
  finfo_eps : K;                 (* np.finfo(float).eps *)
  add : K -> K -> K;
  sub : K -> K -> K;
  mul : K -> K -> K;
  div : K -> K -> K;
  opp : K -> K;
  absv : K -> K;                 (* abs, np.abs *)
  ltb : K -> K -> bool;          (* x < y *)
  np_sqrt : K -> K;              (* np.sqrt: never raises *)
  math_sqrt : K -> result K      (* math.sqrt: ValueError below zero *)
}.

Declare Scope K_scope.
Delimit Scope K_scope with K.
Infix "+" := add : K_scope.
Infix "-" := sub : K_scope.
Infix "*" := mul : K_scope.
Infix "/" := div : K_scope.
Notation "- x" := (opp x) : K_scope.
Notation "x <? y" := (ltb x y) : K_scope.
Notation "x >? y" := (ltb y x) : K_scope.

Definition domain_error : exn := ValueError "math domain error"%string.

Definition float_of_Z (z : Z) : float :=
  match z with
  | Z0 => 0%float
  | Zpos _ => PrimFloat.of_uint63 (Uint63.of_Z z)
  | Zneg p => PrimFloat.opp (PrimFloat.of_uint63 (Uint63.of_Z (Zpos p)))
  end.

#[export] Instance float_scalar : Scalar float := {
  of_Z := float_of_Z;
  lit_1e_10 := 0x1.b7cdfd9d7bdbbp-34%float;
  finfo_eps := 0x1p-52%float;
  add := PrimFloat.add;
  sub := PrimFloat.sub;
  mul := PrimFloat.mul;
  div := PrimFloat.div;
  opp := PrimFloat.opp;
  absv := PrimFloat.abs;
  ltb := PrimFloat.ltb;
  np_sqrt := PrimFloat.sqrt;
  math_sqrt := fun x =>
    if PrimFloat.ltb x 0%float then Raise domain_error else Ok (PrimFloat.sqrt x)
}.

Definition Rltb (x y : R) : bool := if Rlt_dec x y then true else false.

#[export] Instance R_scalar : Scalar R := {
  of_Z := IZR;
  lit_1e_10 := (/ 10000000000)%R;
  finfo_eps := (/ 4503599627370496)%R;
  add := Rplus;
  sub := Rminus;
  mul := Rmult;
  div := Rdiv;
  opp := Ropp;
  absv := Rabs;
  ltb := Rltb;
  np_sqrt := sqrt;
  math_sqrt := fun x => if Rltb x 0 then Raise domain_error else Ok (sqrt x)
}.

(** ** NumPy arrays *)

Section Arrays.
Context {K : Type} `{Scalar K}.

(** [np.zeros(n)] *)
Definition np_zeros (n : nat) : list K := repeat (of_Z 0) n.

(** [val[i]] for a non-negative constant [i] *)
Definition getitem (val : list K) (i : nat) : result K :=
  match nth_error val i with
  | Some x => Ok x
  | None => Raise (IndexError "index out of bounds"%string)
  end.

(** [output[i] = x] *)
Definition setitem (output : list K) (i : nat) (x : K) : result (list K) :=
  if (i <? length output)%nat
  then Ok (firstn i output ++ x :: skipn (S i) output)
  else Raise (IndexError "index out of bounds"%string).

(** [val[lo:hi]]: a slice is clipped to the array *)
Definition slice (val : list K) (lo hi : nat) : list K :=
  firstn (hi - lo) (skipn lo val).

(** [output[lo:hi] = src]: the shapes must agree, a one-element source is
    broadcast *)
Definition setslice (output : list K) (lo hi : nat) (src : list K)
  : result (list K) :=
  let n := length (slice output lo hi) in
  if (length src =? n)%nat
  then Ok (firstn lo output ++ src ++ skipn (lo + n) output)
  else match src with
       | [x] => Ok (firstn lo output ++ repeat x n ++ skipn (lo + n) output)
       | _ => Raise (ValueError "could not broadcast input array"%string)
       end.

(** ** GradeProjector: [project_val] *)

Definition project_val (val : list K) (grade : Z) : result (list K) :=
  let output := np_zeros 32 in
  if (grade =? 0)%Z then
    x <- getitem val 0 ;; setitem output 0 x
  else if (grade =? 1)%Z then
    setslice output 1 6 (slice val 1 6)
  else if (grade =? 2)%Z then
    setslice output 6 16 (slice val 6 16)
  else if (grade =? 3)%Z then
    setslice output 16 26 (slice val 16 26)
  else if (grade =? 4)%Z then
    setslice output 26 31 (slice val 26 31)
  else if (grade =? 5)%Z then
    x <- getitem val 31 ;; setitem output 31 x
  else Ok output.

(** The grade bands as the data model states them: six contiguous bands of
    sizes 1, 5, 10, 10, 5, 1. *)
Definition band_sizes : list nat := [1; 5; 10; 10; 5; 1]%nat.

Definition band_start (g : nat) : nat := list_sum (firstn g band_sizes).

Definition in_band (g : nat) (i : nat) : bool :=
  (band_start g <=? i)%nat && (i <? band_start g + nth g band_sizes 0)%nat.

End Arrays.

(** ** The algebra backend

    [clifford.g3c] supplies a layout: the product kernels compiled from its
    multiplication tables, the blades, and the [MultiVector] class that wraps
    a 32-entry coefficient array.  None of it is in this module's source. *)

(** Modelled from the spec: the multivector of the data model, an ordered
    sequence of 32 coefficients held by the backend's [MultiVector] class. *)
Record MultiVector (K : Type) : Type := MV { value : list K }.

Arguments MV {K} value.
Arguments value {K} m.

(** Modelled from the spec: the primitives the core takes from the backend
    (section 6): geometric, outer and inner product, the adjoint, and the
    inverse behind a division by a multivector.  They are parameters. *)
Class Layout (K : Type) : Type := {
  gmt_func : list K -> list K -> list K;      (* geometric product *)
  omt_func : list K -> list K -> list K;      (* outer product *)
  imt_func : list K -> list K -> list K;      (* inner product *)
  adjoint_func : list K -> list K;
  inv_func : list K -> result (list K)        (* ValueError: no inverse *)
}.

(** The trigonometric functions [val_exp] takes from NumPy. *)
Class Libm (K : Type) : Type := {
  np_sin : K -> K;
  np_cos : K -> K;
  np_sinc : K -> K;
  np_pi : K
}.

Section Backend.
Context {K : Type} `{Scalar K} `{Layout K}.

Local Open Scope K_scope.

Fixpoint map2 {A B C : Type} (f : A -> B -> C) (u : list A) (w : list B)
  : list C :=
  match u, w with
  | a :: u', b :: w' => f a b :: map2 f u' w'
  | _, _ => []
  end.

(** Modelled from the spec: the grade-band table ([layout.gradeList]), the
    grade of each of the 32 places, from the band sizes 1, 5, 10, 10, 5, 1. *)
Definition gradeList : list Z :=
  flat_map (fun g => repeat (Z.of_nat g) (nth g band_sizes 0%nat)) (seq 0 6).

(** Modelled from the spec: the arithmetic of [MultiVector] values, which
    the backend's class defines on the coefficient arrays: elementwise
    NumPy operations, the kernels of the layout, a number coerced to a
    scalar multivector, the magnitude [(~M * M)[0]] and the normalization
    [M / abs(M)].  Arrays of one layout have the same 32 entries. *)
Definition np_add (u w : list K) : list K := map2 add u w.
Definition np_sub (u w : list K) : list K := map2 sub u w.
Definition np_neg (u : list K) : list K := map opp u.
Definition np_abs (u : list K) : list K := map absv u.
Definition np_scale (c : K) (u : list K) : list K := map (fun x => c * x) u.
Definition np_div (u : list K) (c : K) : list K := map (fun x => x / c) u.

(** [_newMV()] with [[()] = c]: a number coerced to a multivector. *)
Definition scalar_val (c : K) : list K := c :: np_zeros 31.

(** [M * N], [c * M], [M ^ N], [M | N] *)
Definition mv_mul (a b : MultiVector K) : MultiVector K :=
  MV (gmt_func (value a) (value b)).
Definition mv_scale (c : K) (a : MultiVector K) : MultiVector K :=
  MV (np_scale c (value a)).
Definition mv_xor (a b : MultiVector K) : MultiVector K :=
  MV (omt_func (value a) (value b)).
Definition mv_or (a b : MultiVector K) : MultiVector K :=
  MV (imt_func (value a) (value b)).

(** [M + N], [M + c] and [c + M], [c - M], [M - c], [-M], [M / c] *)
Definition mv_add (a b : MultiVector K) : MultiVector K :=
  MV (np_add (value a) (value b)).
Definition mv_add_scalar (a : MultiVector K) (c : K) : MultiVector K :=
  MV (np_add (value a) (scalar_val c)).
Definition mv_rsub_scalar (c : K) (a : MultiVector K) : MultiVector K :=
  MV (np_sub (scalar_val c) (value a)).
Definition mv_sub_scalar (a : MultiVector K) (c : K) : MultiVector K :=
  MV (np_sub (value a) (scalar_val c)).
Definition mv_neg (a : MultiVector K) : MultiVector K :=
  MV (np_neg (value a)).
Definition mv_div_scalar (a : MultiVector K) (c : K) : MultiVector K :=
  MV (np_div (value a) c).

(** [~M] *)
Definition mv_reverse (a : MultiVector K) : MultiVector K :=
  MV (adjoint_func (value a)).

(** [M[i]] *)
Definition mv_getitem (a : MultiVector K) (i : nat) : K :=
  nth i (value a) (of_Z 0).

(** [M(grade)]: the coefficient array times the mask of the grade *)
Definition mv_grade (a : MultiVector K) (grade : Z) : MultiVector K :=
  MV (map2 (fun g x => if (g =? grade)%Z then of_Z 1 * x else of_Z 0 * x)
        gradeList (value a)).

(** [M ** n] for a positive exponent: [n - 1] products *)
Fixpoint mv_pow_loop (self newMV : MultiVector K) (n : nat) : MultiVector K :=
  match n with
  | O => newMV
  | S n' => mv_pow_loop self (mv_mul newMV self) n'
  end.
Definition mv_pow (self : MultiVector K) (other : nat) : MultiVector K :=
  mv_pow_loop self self (other - 1).

(** [M.inv()], [c / M] *)
Definition mv_inv (a : MultiVector K) : result (MultiVector K) :=
  v <- inv_func (value a) ;; Ok (MV v).
Definition mv_rdiv_scalar (c : K) (a : MultiVector K)
  : result (MultiVector K) :=
  i <- mv_inv a ;; Ok (mv_mul (MV (scalar_val c)) i).

(** [M.mag2()], [abs(M)], [M.normal()] *)
Definition mv_mag2 (a : MultiVector K) : K :=
  mv_getitem (mv_mul (mv_reverse a) a) 0.
Definition mv_abs (a : MultiVector K) : K := np_sqrt (absv (mv_mag2 a)).
Definition mv_normal (a : MultiVector K) : MultiVector K :=
  mv_div_scalar a (mv_abs a).

(** Modelled from the spec: the fixed basis constants of [clifford.g3c]: a
    blade has a unit coefficient at its place (blades are ordered by grade,
    then lexicographically); [einf = e5 + e4] and [eo = .5 * (e5 - e4)]. *)
Definition basis (i : nat) : list K :=
  map (fun j => if (j =? i)%nat then of_Z 1 else of_Z 0) (seq 0 32).
Definition e1 : MultiVector K := MV (basis 1).
Definition e123 : MultiVector K := MV (basis 16).
Definition e12345 : MultiVector K := MV (basis 31).
Definition einf : MultiVector K := MV (np_add (basis 5) (basis 4)).
Definition eo : MultiVector K :=
  MV (np_scale (of_Z 1 / of_Z 2) (np_sub (basis 5) (basis 4))).

(** ** Module constants of [clifford.tools.g3c] *)

Definition ninf : MultiVector K := einf.
Definition no : MultiVector K := mv_neg eo.
Definition I5 : MultiVector K := e12345.
Definition I3 : MultiVector K := e123.
Definition ninf_val : list K := value ninf.
Definition no_val : list K := value no.
Definition I3_val : list K := value I3.
Definition unit_scalar_mv : MultiVector K :=
  mv_add_scalar (mv_scale (of_Z 0) e1) (of_Z 1).

(** ** MeetOperator *)

Definition meet (A B : MultiVector K) : MultiVector K :=
  mv_mul I5 (mv_xor (mv_mul I5 A) (mv_mul I5 B)).

(** ** RotorSquareRoot *)

Definition dorst_norm_val (sigma : MultiVector K) : result K :=
  let s0 := mv_getitem sigma 0 in
  math_sqrt (s0 * s0 - mv_getitem (mv_pow (mv_grade sigma 4) 2) 0).

Definition check_sigma_for_positive_root (sigma : MultiVector K)
  : result bool :=
  n <- dorst_norm_val sigma ;; Ok (mv_getitem sigma 0 + n >? of_Z 0).

Definition check_sigma_for_negative_root (sigma : MultiVector K)
  : result bool :=
  n <- dorst_norm_val sigma ;; Ok (mv_getitem sigma 0 - n >? of_Z 0).

Definition check_infinite_roots (sigma : MultiVector K) : result bool :=
  n <- dorst_norm_val sigma ;; Ok (mv_getitem sigma 0 + n <? lit_1e_10).

Definition positive_root (sigma : MultiVector K)
  : result (MultiVector K) :=
  norm_s <- dorst_norm_val sigma ;;
  let num := mv_add_scalar sigma norm_s in
  r2 <- math_sqrt (of_Z 2) ;;
  r <- math_sqrt (mv_getitem sigma 0 + norm_s) ;;
  Ok (mv_div_scalar num (r2 * r)).

Definition negative_root (sigma : MultiVector K)
  : result (MultiVector K) :=
  norm_s <- dorst_norm_val sigma ;;
  let num := mv_sub_scalar sigma norm_s in
  r2 <- math_sqrt (of_Z 2) ;;
  r <- math_sqrt (mv_getitem sigma 0 - norm_s) ;;
  Ok (mv_div_scalar num (r2 * r)).

Definition no_root_exists : exn := ValueError "No root exists"%string.

Definition neg_twiddle_root (C : MultiVector K)
  : result (list (MultiVector K)) :=
  let sigma := mv_neg (mv_mul C (mv_reverse C)) in
  a <- check_sigma_for_positive_root sigma ;;
  if a then
    k <- positive_root sigma ;;
    q <- mv_rdiv_scalar (of_Z 1) k ;;
    let C3 := mv_normal (mv_mul q C) in
    Ok [C3]
  else
    b <- check_sigma_for_negative_root sigma ;;
    if b then
      k <- positive_root sigma ;;
      q <- mv_rdiv_scalar (of_Z 1) k ;;
      let C3 := mv_normal (mv_mul q C) in
      k2 <- negative_root sigma ;;
      q2 <- mv_rdiv_scalar (of_Z 1) k2 ;;
      let C4 := mv_normal (mv_mul q2 C) in
      Ok [C3; C4]
    else
      c <- check_infinite_roots sigma ;;
      if c then Ok [mv_normal C]
      else Raise no_root_exists.

Definition pos_twiddle_root (C : MultiVector K)
  : result (list (MultiVector K)) :=
  let sigma := mv_mul C (mv_reverse C) in
  a <- check_sigma_for_positive_root sigma ;;
  if a then
    k <- positive_root sigma ;;
    q <- mv_rdiv_scalar (of_Z 1) k ;;
    let C3 := mv_normal (mv_mul q C) in
    Ok [C3]
  else
    b <- check_sigma_for_negative_root sigma ;;
    if b then
      k <- positive_root sigma ;;
      q <- mv_rdiv_scalar (of_Z 1) k ;;
      let C3 := mv_normal (mv_mul q C) in
      k2 <- negative_root sigma ;;
      q2 <- mv_rdiv_scalar (of_Z 1) k2 ;;
      let C4 := mv_normal (mv_mul q2 C) in
      Ok [C3; C4]
    else
      c <- check_infinite_roots sigma ;;
      if c then Ok [mv_normal C]
      else Raise no_root_exists.

Definition square_roots_of_rotor (R : MultiVector K)
  : result (list (MultiVector K)) :=
  pos_twiddle_root (mv_add_scalar R (of_Z 1)).

(** ** ObjectInterpolator *)

(** [roots[i]] on a Python list *)
Definition list_getitem {A : Type} (l : list A) (i : nat) : result A :=
  match nth_error l i with
  | Some x => Ok x
  | None => Raise (IndexError "list index out of range"%string)
  end.

Definition interp_objects_root (C1 C2 : MultiVector K) (alpha : K)
  : result (MultiVector K) :=
  let C := mv_add (mv_scale alpha C1) (mv_scale (of_Z 1 - alpha) C2) in
  roots <- neg_twiddle_root C ;;
  r <- list_getitem roots 0 ;;
  Ok (mv_normal r).

(** [sum(obj_list)] starts from the int 0, so the first addition is
    [0 + X]; [sum([]) / len([])] is [0 / 0]. *)
Definition average_objects (obj_list : list (MultiVector K))
  : result (MultiVector K) :=
  match obj_list with
  | [] => Raise (ZeroDivisionError "division by zero"%string)
  | X :: rest =>
      let total := fold_left mv_add rest (mv_add_scalar X (of_Z 0)) in
      let C := mv_div_scalar total (of_Z (Z.of_nat (length obj_list))) in
      roots <- neg_twiddle_root C ;;
      r <- list_getitem roots 0 ;;
      Ok (mv_normal r)
  end.

Definition rotor_between_objects (C1 C2 : MultiVector K)
  : result (MultiVector K) :=
  if (mv_getitem (mv_mul C1 C1) 0 >? of_Z 0) then
    let C := mv_add_scalar (mv_mul C2 C1) (of_Z 1) in
    roots <- pos_twiddle_root C ;;
    R <- list_getitem roots 0 ;;
    Ok R
  else
    Ok (mv_normal (mv_rsub_scalar (of_Z 1) (mv_mul C2 C1))).

(** ** RotorApplicator *)

Definition val_apply_rotor (mv_val rotor_val : list K) : list K :=
  gmt_func rotor_val (gmt_func mv_val (adjoint_func rotor_val)).

Definition apply_rotor (mv_in rotor : MultiVector K) : MultiVector K :=
  MV (val_apply_rotor (value mv_in) (value rotor)).

(** ** RotorExponential *)

Definition mult_with_ninf (mv : list K) : list K := gmt_func mv ninf_val.

(** [np.sum] over a float array: the identity 0 plus NumPy's pairwise
    summation (plain loop below 8 entries, eight running sums up to 128,
    halving above). *)
Fixpoint sum8 (r a : list K) (blocks : nat) : list K * list K :=
  match blocks with
  | O => (r, a)
  | S b => sum8 (np_add r (firstn 8 a)) (skipn 8 a) b
  end.

Definition pairwise_block (a : list K) : K :=
  let (r, rest) := sum8 (firstn 8 a) (skipn 8 a) (length a / 8 - 1) in
  match r with
  | [r0; r1; r2; r3; r4; r5; r6; r7] =>
      fold_left add rest (((r0 + r1) + (r2 + r3)) + ((r4 + r5) + (r6 + r7)))
  | _ => of_Z 0
  end.

Fixpoint pairwise_sum (fuel : nat) (a : list K) : K :=
  let n := length a in
  if (n <? 8)%nat then fold_left add a (of_Z 0)
  else if (n <=? 128)%nat then pairwise_block a
  else match fuel with
       | O => of_Z 0
       | S f =>
           let n2 := (n / 2 - (n / 2) mod 8)%nat in
           pairwise_sum f (firstn n2 a) + pairwise_sum f (skipn n2 a)
       end.

Definition np_sum (a : list K) : K := of_Z 0 + pairwise_sum (length a) a.

Context `{Libm K}.

Definition val_exp (B_val : list K) : result (list K) :=
  let t_val := imt_func B_val no_val in
  let phiP_val := np_sub B_val (mult_with_ninf t_val) in
  g0 <- getitem (gmt_func phiP_val phiP_val) 0 ;;
  let phi := np_sqrt (- g0) in
  let P_val := np_div phiP_val phi in
  let P_n_val := gmt_func P_val I3_val in
  let t_nor_val := gmt_func (imt_func t_val P_n_val) P_n_val in
  let t_par_val := np_sub t_val t_nor_val in
  let coef_val := np_scale (np_sin phi) P_val in
  c0 <- getitem coef_val 0 ;;
  coef_val <- setitem coef_val 0 (c0 + np_cos phi) ;;
  Ok (np_add (np_add coef_val (gmt_func coef_val (mult_with_ninf t_nor_val)))
        (np_scale (np_sinc (phi / np_pi)) (mult_with_ninf t_par_val))).

Definition ga_exp (B : MultiVector K) : result (MultiVector K) :=
  if (np_sum (np_abs (value B)) <? finfo_eps) then
    Ok (MV (value unit_scalar_mv))
  else
    R_val <- val_exp (value B) ;; Ok (MV R_val).

End Backend.

(** ** More of the module: conformal points, distances, translations *)

(** [x != y] and [x == y] on numbers. *)
Class ScalarEq (K : Type) : Type := { equal : K -> K -> bool }.

#[export] Instance float_equal : ScalarEq float := { equal := PrimFloat.eqb }.

Definition Reqb (x y : R) : bool := if Req_dec_T x y then true else false.

#[export] Instance R_equal : ScalarEq R := { equal := Reqb }.

Section MoreFunctions.
Context {K : Type} {scalar : Scalar K} {scalar_eq : ScalarEq K}
  {layout : Layout K}.
Local Open Scope K_scope.

(** [1 + ninf * euc_vector_a / 2] *)
Definition generate_translation_rotor (euc_vector_a : MultiVector K)
  : MultiVector K :=
  mv_add_scalar (mv_div_scalar (mv_mul ninf euc_vector_a) (of_Z 2)) (of_Z 1).

Definition zero_einf_component : exn :=
  ZeroDivisionError "Multivector has 0 einf component"%string.

Definition normalise_n_minus_1 (mv : MultiVector K)
  : result (MultiVector K) :=
  let scale := mv_getitem (mv_or mv ninf) 0 in
  if negb (equal scale (of_Z 0))
  then Ok (mv_div_scalar (mv_neg mv) scale)
  else Raise zero_einf_component.

Definition get_center_from_sphere (sphere : MultiVector K)
  : MultiVector K :=
  mv_mul (mv_mul sphere ninf) sphere.

Definition euc_dist (conf_mv_a conf_mv_b : MultiVector K) : result K :=
  let dot_result := mv_getitem (mv_or conf_mv_a conf_mv_b) 0 in
  if dot_result <? of_Z 0
  then math_sqrt (of_Z (-2) * dot_result)
  else Ok (of_Z 0).

(** [temp] is [np.zeros(32)] with [temp[0] = 0.5]. *)
Definition val_up (mv_val : list K) : list K :=
  let temp := scalar_val (of_Z 1 / of_Z 2) in
  np_add (np_sub mv_val no_val)
    (omt_func temp (gmt_func (gmt_func mv_val mv_val) ninf_val)).

(** [mv_val] is [np.zeros(32)] with [mv_val[1] = x] and [mv_val[2] = y]. *)
Definition val_convert_2D_point_to_conformal (x y : K) : list K :=
  val_up (of_Z 0 :: x :: y :: np_zeros 29).

Definition convert_2D_point_to_conformal (x y : K) : MultiVector K :=
  MV (val_convert_2D_point_to_conformal x y).

End MoreFunctions.

(** ** An instance of the backend: the algebra G(4,1)

    Modelled from the spec: the algebra backend of section 6 (product
    kernels and reversion), which is not part of this module's source.  Blades are ordered by grade and then
    lexicographically; a blade is the set of its basis vectors, held as a bit
    mask; [e1 .. e4] square to 1 and [e5] to -1. *)

Module G41.

Definition blade_bits : list N :=
  [0; 1; 2; 4; 8; 16;
   3; 5; 9; 17; 6; 10; 18; 12; 20; 24;
   7; 11; 19; 13; 21; 25; 14; 22; 26; 28;
   15; 23; 27; 29; 30; 31]%N.

Definition bits (i : nat) : N := nth i blade_bits 0%N.

Fixpoint find_index (b : N) (l : list N) (i : nat) : nat :=
  match l with
  | [] => i
  | x :: l' => if (x =? b)%N then i else find_index b l' (S i)
  end.

Definition index (b : N) : nat := find_index b blade_bits 0.

Fixpoint popcount (fuel : nat) (a : N) : nat :=
  match fuel with
  | O => 0
  | S f => (if N.odd a then 1 else 0) + popcount f (N.div2 a)
  end.

(** Number of transpositions that sort the product of two blades. *)
Fixpoint swaps (fuel : nat) (a b : N) : nat :=
  match fuel with
  | O => 0
  | S f => popcount 5 (N.land (N.div2 a) b) + swaps f (N.div2 a) b
  end.

(** Sign of the product of two blades: reordering, and [e5 * e5 = -1]. *)
Definition blade_sign (a b : N) : Z :=
  let s := if Nat.even (swaps 5 a b) then 1%Z else (-1)%Z in
  if N.testbit (N.land a b) 4 then (- s)%Z else s.

Definition grade_of (i : nat) : nat := popcount 5 (bits i).

Definition reverse_sign (g : nat) : Z :=
  if Nat.even (g * (g - 1) / 2) then 1%Z else (-1)%Z.

(** The table by places: the blade that multiplies blade [k] into blade
    [l], the sign of a product of two blades, the sign of a reversion. *)
Definition range : list nat := seq 0 32.
Definition idx (k l : nat) : nat := index (N.lxor (bits k) (bits l)).
Definition sg (k m : nat) : Z := blade_sign (bits k) (bits m).
Definition rs (i : nat) : Z := reverse_sign (grade_of i).

Section Kernels.
Context {K : Type} `{Scalar K}.
Local Open Scope K_scope.

Definition coef (u : list K) (i : nat) : K := nth i u (of_Z 0).

(** One output entry of a product kernel: the table entries that feed it,
    accumulated in the order of the left operand's index. *)
Definition table_entry (keep : nat -> nat -> bool) (u w : list K) (l : nat)
  : K :=
  fold_left
    (fun acc k =>
       if keep k (idx k l)
       then acc + coef u k * of_Z (sg k (idx k l)) * coef w (idx k l)
       else acc)
    range (of_Z 0).

Definition gmt (u w : list K) : list K :=
  map (table_entry (fun _ _ => true) u w) range.

Definition omt (u w : list K) : list K :=
  map (table_entry (fun k m => (N.land (bits k) (bits m) =? 0)%N) u w) range.

(** Inner product: the grade [|r - s|] part, zero on scalars. *)
Definition imt (u w : list K) : list K :=
  map (table_entry
         (fun k m =>
            let a := bits k in
            let b := bits m in
            negb (a =? 0)%N && negb (b =? 0)%N
            && ((N.land a b =? a)%N || (N.land a b =? b)%N)) u w)
    range.

Definition adjoint (u : list K) : list K :=
  map (fun i => of_Z (rs i) * coef u i) range.

Definition nonzero (x : K) : bool := of_Z 0 <? absv x.

(** The inverse of a versor: [~M / (M ~M)[0]] where [M ~M] is a non-zero
    scalar. *)
Definition inv (u : list K) : result (list K) :=
  let r := adjoint u in
  let m := gmt u r in
  if nonzero (coef m 0) && forallb (fun x => negb (nonzero x)) (tl m)
  then Ok (map (fun x => x / coef m 0) r)
  else Raise (ValueError "no inverse exists for this multivector"%string).

#[export] Instance layout : Layout K := {
  gmt_func := gmt;
  omt_func := omt;
  imt_func := imt;
  adjoint_func := adjoint;
  inv_func := inv
}.

End Kernels.

End G41.

(** NumPy's trigonometric functions on floats.  Rocq's primitive floats have
    no sine or cosine, and the C library does not fix theirs bit for bit; this
    instance evaluates truncated power series, good near zero, so that the
    float model can be run.  No property below depends on its values. *)
Module Series.

Definition pi : float := 0x1.921fb54442d18p+1%float.

Definition sin (x : float) : float :=
  let x2 := (x * x)%float in
  (x * (1 - x2 / 6 * (1 - x2 / 20 * (1 - x2 / 42 * (1 - x2 / 72)))))%float.

Definition cos (x : float) : float :=
  let x2 := (x * x)%float in
  (1 - x2 / 2 * (1 - x2 / 12 * (1 - x2 / 30 * (1 - x2 / 56))))%float.

Definition sinc (x : float) : float :=
  let y := (pi * x)%float in
  if PrimFloat.eqb y 0%float then 1%float else (sin y / y)%float.

#[export] Instance libm : Libm float := {
  np_sin := sin;
  np_cos := cos;
  np_sinc := sinc;
  np_pi := pi
}.

End Series.

(** * Vocabulary of the statements *)

Section RootCases.
Context {K : Type} `{Scalar K} `{Layout K}.
Local Open Scope K_scope.

(** The two variants of the root finder, and the [sigma] each one forms. *)
Definition twiddle_sigma (negative : bool) (C : MultiVector K)
  : MultiVector K :=
  if negative then mv_neg (mv_mul C (mv_reverse C))
  else mv_mul C (mv_reverse C).

Definition twiddle_root (negative : bool) (C : MultiVector K)
  : result (list (MultiVector K)) :=
  if negative then neg_twiddle_root C else pos_twiddle_root C.

(** The case analysis in the words of the design: the conditions on the
    scalar part [s0] and [dorst_norm] are tried in the order A, B, C. *)
Inductive root_case : Type := CaseA | CaseB | CaseC | NoRoot.

Definition classify (s0 dorst_norm : K) : root_case :=
  if s0 + dorst_norm >? of_Z 0 then CaseA
  else if s0 - dorst_norm >? of_Z 0 then CaseB
  else if s0 + dorst_norm <? lit_1e_10 then CaseC
  else NoRoot.



End RootCases.

(** The identity versor in the words of the design: scalar 1, every other
    coefficient 0. *)
Definition identity_versor : list float :=
  map (fun i => if (i =? 0)%nat then 1%float else 0%float) (seq 0 32).

(** ** Exact arithmetic

    The identities between multivectors hold in exact arithmetic.  There the
    kernels of a backend obey the laws of the geometric product: it is
    associative and bilinear, numbers embed in it, the adjoint reverses
    products, and a non-zero number is inverted as a number. *)

Class LayoutLaws (L : Layout R) : Prop := {
  gmt_assoc : forall a b c : list R,
    gmt_func (gmt_func a b) c = gmt_func a (gmt_func b c);
  adjoint_anti : forall a b : list R,
    adjoint_func (gmt_func a b) = gmt_func (adjoint_func b) (adjoint_func a);
  gmt_scale_l : forall (c : R) (u w : list R),
    gmt_func (np_scale c u) w = np_scale c (gmt_func u w);
  gmt_scale_r : forall (c : R) (u w : list R),
    gmt_func u (np_scale c w) = np_scale c (gmt_func u w);
  adjoint_scale : forall (c : R) (u : list R),
    adjoint_func (np_scale c u) = np_scale c (adjoint_func u);
  gmt_scalar_l : forall (a : R) (w : list R),
    length w = 32%nat -> gmt_func (scalar_val a) w = np_scale a w;
  inv_scalar : forall a : R,
    a <> 0%R -> inv_func (scalar_val a) = Ok (scalar_val (/ a)%R)
}.

(** A valid object: a 32-entry multivector whose product with its reverse
    is a non-zero scalar (as for every non-null blade) and whose magnitude
    [(~X * X)[0]] is not zero. *)
Definition valid_object {L : Layout R} (X : MultiVector R) : Prop :=
  length (value X) = 32%nat
  /\ (exists t, t <> 0%R
                /\ value (mv_mul X (mv_reverse X)) = scalar_val t)
  /\ mv_mag2 X <> 0%R.

(** Finite sums of reals over a list of places. *)
Definition bigsum (f : nat -> R) (l : list nat) : R :=
  fold_left (fun acc k => (acc + f k)%R) l 0%R.

(** ** More laws of the backend in exact arithmetic

    The geometric product is additive in each argument, the kernels return
    32 coefficients, numbers multiply from the right as from the left, and
    the adjoint is an involution. *)

Class LayoutLinear (L : Layout R) : Prop := {
  gmt_length : forall u w : list R, length (gmt_func u w) = 32%nat;
  adjoint_length : forall u : list R, length (adjoint_func u) = 32%nat;
  gmt_add_l : forall u v w : list R,
    length u = 32%nat -> length v = 32%nat ->
    gmt_func (np_add u v) w = np_add (gmt_func u w) (gmt_func v w);
  gmt_add_r : forall u v w : list R,
    length u = 32%nat -> length v = 32%nat ->
    gmt_func w (np_add u v) = np_add (gmt_func w u) (gmt_func w v);
  adjoint_add : forall u v : list R,
    length u = 32%nat -> length v = 32%nat ->
    adjoint_func (np_add u v) = np_add (adjoint_func u) (adjoint_func v);
  gmt_scalar_r : forall (a : R) (w : list R),
    length w = 32%nat -> gmt_func w (scalar_val a) = np_scale a w;
  adjoint_scalar : forall a : R,
    adjoint_func (scalar_val a) = scalar_val a;
  adjoint_invol : forall u : list R,
    length u = 32%nat -> adjoint_func (adjoint_func u) = u
}.

(** A rotor as [square_roots_of_rotor] takes it: 32 coefficients, unit
    products with its reverse on both sides, and a sum with its reverse that
    is a number above -2 (a rotation or a translation, not a half turn). *)
Definition simple_rotor {L : Layout R} (R0 : MultiVector R) : Prop :=
  length (value R0) = 32%nat
  /\ value (mv_mul R0 (mv_reverse R0)) = scalar_val 1%R
  /\ value (mv_mul (mv_reverse R0) R0) = scalar_val 1%R
  /\ exists t, (-2 < t)%R /\ value (mv_add R0 (mv_reverse R0)) = scalar_val t.

(** Two unit objects of one kind: each squares to 1, the reverse of their
    product is the product in the other order (as for two blades of one
    grade), and the two products add up to a number above -2 (the objects
    are not opposite). *)
Definition unit_pair {L : Layout R} (C1 C2 : MultiVector R) : Prop :=
  length (value C1) = 32%nat /\ length (value C2) = 32%nat
  /\ value (mv_mul C1 C1) = scalar_val 1%R
  /\ value (mv_mul C2 C2) = scalar_val 1%R
  /\ value (mv_reverse (mv_mul C2 C1)) = value (mv_mul C1 C2)
  /\ exists t, (-2 < t)%R
       /\ value (mv_add (mv_mul C2 C1) (mv_mul C1 C2)) = scalar_val t.

(** The sum of the coefficients at one place over a list of objects. *)
Definition coefficient_sum (l : list (MultiVector R)) (i : nat) : R :=
  fold_right (fun X s => (nth i (value X) 0 + s)%R) 0%R l.

(** ** Points, translations and spheres of the conformal model

    The Euclidean vector [x e1 + y e2 + z e3], the bivector
    [a e12 + b e13 + c e23] of a rotation, and the sphere of centre
    [(x, y, z)] and radius [r] as the 4-vector [(up(c) - r^2/2 ninf) I5],
    on the G(4,1) table in exact arithmetic. *)

Definition euclidean (x y z : R) : list R :=
  [0; x; y; z]%R ++ np_zeros 28.

Definition rotation_bivector (a b c : R) : list R :=
  [0; 0; 0; 0; 0; 0; a; b; 0; 0; c]%R ++ np_zeros 21.

Section SphereOfCentreAndRadius.
#[local] Existing Instance G41.layout.

Definition sphere_of (x y z r : R) : MultiVector R :=
  mv_mul
    (mv_add (MV (val_up (euclidean x y z)))
       (mv_scale (- (r * r / 2))%R ninf))
    I5.

End SphereOfCentreAndRadius.

(** [np.sin], [np.cos], [np.sinc] and [np.pi] in exact arithmetic. *)
Definition R_libm : Libm R := {|
  np_sin := sin;
  np_cos := cos;
  np_sinc := fun x =>
    if Req_dec_T x 0 then 1%R else (sin (PI * x) / (PI * x))%R;
  np_pi := PI
|}.

(** The places of particular multivectors. *)

Section PlacesOfMultivectors.
Local Open Scope R_scope.

(** The places of a vector [x e1 + y e2 + z e3 + u e4 + v e5]. *)
Definition vector_places (x y z u v : R) : list R :=
  [0; x; y; z; u; v] ++ np_zeros 26.

(** The places of [1 - (a e1 + b e2 + c e3) ninf / 2]. *)
Definition translator_places (a b c : R) : list R :=
  [1; 0; 0; 0; 0; 0; 0; 0; - a / 2; - a / 2; 0; - b / 2; - b / 2;
   - c / 2; - c / 2] ++ np_zeros 17.

(** The places of [k (x e1 + y e2 + z e3 + u e4 + v e5) I5]. *)
Definition dual_places (k x y z u v : R) : list R :=
  np_zeros 26 ++ [- k * v; - k * u; k * z; - k * y; k * x; 0].

(** The places of [C + s (a e12 + b e13 + c e23)]. *)
Definition euler_places (C s a b c : R) : list R :=
  [C; 0; 0; 0; 0; 0; s * a; s * b; 0; 0; s * c] ++ np_zeros 21.

End PlacesOfMultivectors.

(** ** Inputs of the further runs *)

Module MoreExamples.

(** [e4 + e45 + e1235] *)
Definition negative_radicand : MultiVector float :=
  MV (np_add (np_add (basis 4) (basis 15)) (basis 27)).

(** The bivector [e12] with real coefficients. *)
Definition e12_R : MultiVector R := MV (basis 6).

(** A 32-entry array with the coefficients 1.0 to 32.0. *)
Definition counting : list float :=
  map (fun i => float_of_Z (Z.of_nat (S i))) (seq 0 32).



End MoreExamples.

(** ** Inputs of the runs *)

Module Examples.

Definition e5 : MultiVector float := MV (basis 5).


(** A multivector with a NaN coefficient. *)
Definition with_nan : MultiVector float := MV (nan :: np_zeros 31).

(** A bivector with the single coefficient [2^-60] on [e12]. *)
Definition tiny_bivector : MultiVector float :=
  MV (np_scale 0x1p-60%float (basis 6)).

(** The vectors [e1], [e2] and [e5] with real coefficients. *)
Definition e1_R : MultiVector R := MV (basis 1).
Definition e2_R : MultiVector R := MV (basis 2).
Definition e5_R : MultiVector R := MV (basis 5).

End Examples.

(** * Properties *)

(** ** GradeProjector *)

Section GradeProjector.
Context {K : Type} `{Scalar K}.

Ltac explicit_array val Hlen :=
  do 32 (destruct val as [|? val]; [discriminate Hlen|]);
  destruct val; [clear Hlen|discriminate Hlen].

Lemma grade_cases (g : Z) :
  (0 <= g <= 5)%Z ->
  g = 0%Z \/ g = 1%Z \/ g = 2%Z \/ g = 3%Z \/ g = 4%Z \/ g = 5%Z.
Proof. lia. Qed.

(** C9: on a 32-entry array and a grade in [0,5], [project_val] succeeds,
    projecting its output again at the same grade returns that output, and
    the output holds the input's coefficient inside the band of the grade
    and zero outside it. *)
Theorem project_val_idempotent (val : list K) (g : Z) :
  length val = 32%nat ->
  (0 <= g <= 5)%Z ->
  exists out,
    project_val val g = Ok out
    /\ project_val out g = Ok out
    /\ length out = 32%nat
    /\ forall i, (i < 32)%nat ->
         nth i out (of_Z 0) =
         if in_band (Z.to_nat g) i then nth i val (of_Z 0) else of_Z 0.
Proof.
  intros Hlen Hg.
  explicit_array val Hlen.
  destruct (grade_cases Hg) as [E|[E|[E|[E|[E|E]]]]]; subst g;
    (eexists; split; [reflexivity|]; split; [reflexivity|];
     split; [reflexivity|]; intros i Hi;
     do 32 (destruct i as [|i]; [reflexivity|]); lia).
Qed.

(** C10: for a grade outside [0,5] no branch of [project_val] is taken: the
    call raises nothing and returns the 32 zeros it allocated, whatever the
    input array. *)
Theorem project_val_out_of_range (val : list K) (g : Z) :
  (g < 0 \/ 5 < g)%Z ->
  project_val val g = Ok (np_zeros 32).
Proof.
  intros Hg. unfold project_val.
  destruct (Z.eqb_spec g 0); [lia|].
  destruct (Z.eqb_spec g 1); [lia|].
  destruct (Z.eqb_spec g 2); [lia|].
  destruct (Z.eqb_spec g 3); [lia|].
  destruct (Z.eqb_spec g 4); [lia|].
  destruct (Z.eqb_spec g 5); [lia|].
  reflexivity.
Qed.

End GradeProjector.

(** ** RotorSquareRoot *)

Section RotorSquareRoot.
Context {K : Type} `{Scalar K} `{Layout K}.
Local Open Scope K_scope.

Ltac run_root_finder :=
  repeat match goal with
  | |- context [bind (Ok _) _] => cbn [bind]
  | Hr : bind ?m _ = Ok _ |- _ =>
      let x := fresh "x" in
      let E := fresh "E" in
      destruct m as [x|?] eqn:E; cbn [bind] in Hr; [|discriminate Hr]
  | Hr : (if ?b then _ else _) = Ok _ |- _ =>
      let E := fresh "E" in destruct b eqn:E
  | Hr : Ok _ = Ok _ |- _ => injection Hr as Hr; try subst
  | Hr : Raise _ = Ok _ |- _ => discriminate Hr
  end.

Lemma twiddle_root_unfold (negative : bool) (C : MultiVector K) :
  twiddle_root negative C =
  let sigma := twiddle_sigma negative C in
  a <- check_sigma_for_positive_root sigma ;;
  if a then
    k <- positive_root sigma ;;
    q <- mv_rdiv_scalar (of_Z 1) k ;;
    Ok [mv_normal (mv_mul q C)]
  else
    b <- check_sigma_for_negative_root sigma ;;
    if b then
      k <- positive_root sigma ;;
      q <- mv_rdiv_scalar (of_Z 1) k ;;
      k2 <- negative_root sigma ;;
      q2 <- mv_rdiv_scalar (of_Z 1) k2 ;;
      Ok [mv_normal (mv_mul q C); mv_normal (mv_mul q2 C)]
    else
      c <- check_infinite_roots sigma ;;
      if c then Ok [mv_normal C] else Raise no_root_exists.
Proof. destruct negative; reflexivity. Qed.



(** C3: when [dorst_norm] is computed and none of the three conditions
    holds, the root finder raises [ValueError('No root exists')] and so
    returns no value at all. *)
Theorem no_root_raises (negative : bool) (C : MultiVector K) (n : K) :
  let sigma := twiddle_sigma negative C in
  let s0 := mv_getitem sigma 0 in
  dorst_norm_val sigma = Ok n ->
  (s0 + n >? of_Z 0) = false ->
  (s0 - n >? of_Z 0) = false ->
  (s0 + n <? lit_1e_10) = false ->
  twiddle_root negative C = Raise no_root_exists
  /\ forall roots, twiddle_root negative C <> Ok roots.
Proof.
  cbv zeta. intros En Ea Eb Ec.
  assert (Hraise : twiddle_root negative C = Raise no_root_exists).
  { rewrite twiddle_root_unfold. cbv zeta.
    unfold check_sigma_for_positive_root, check_sigma_for_negative_root,
      check_infinite_roots.
    rewrite En. cbn [bind]. rewrite Ea, Eb, Ec. reflexivity. }
  split; [exact Hraise|].
  intros roots Hr. rewrite Hraise in Hr. discriminate Hr.
Qed.

Lemma twiddle_root_nonempty (negative : bool) (C : MultiVector K)
    (roots : list (MultiVector K)) :
  twiddle_root negative C = Ok roots ->
  exists r rest, roots = r :: rest.
Proof.
  rewrite twiddle_root_unfold. cbv zeta. intros Hr.
  run_root_finder; eexists; eexists; reflexivity.
Qed.

End RotorSquareRoot.

(** ** ObjectInterpolator: [rotor_between_objects] *)

Section RotorBetween.
Context {K : Type} `{Scalar K} `{Layout K}.
Local Open Scope K_scope.

(** C7: when the scalar part of [C1 * C1] is positive the result is the
    first entry of [pos_twiddle_root(1 + C2 * C1)] (the list is never empty,
    and an exception of the root finder is passed on); otherwise the result
    is [(1 - C2 * C1).normal()] and no root finder is called. *)
Theorem rotor_between_objects_cases (C1 C2 : MultiVector K) :
  if mv_getitem (mv_mul C1 C1) 0 >? of_Z 0 then
    match pos_twiddle_root (mv_add_scalar (mv_mul C2 C1) (of_Z 1)) with
    | Ok roots =>
        exists R rest,
          roots = R :: rest /\ rotor_between_objects C1 C2 = Ok R
    | Raise e => rotor_between_objects C1 C2 = Raise e
    end
  else
    rotor_between_objects C1 C2 =
    Ok (mv_normal (mv_rsub_scalar (of_Z 1) (mv_mul C2 C1))).
Proof.
  unfold rotor_between_objects.
  destruct (mv_getitem (mv_mul C1 C1) 0 >? of_Z 0); [|reflexivity].
  destruct (pos_twiddle_root (mv_add_scalar (mv_mul C2 C1) (of_Z 1)))
    as [roots|e] eqn:Er; [|reflexivity].
  destruct (twiddle_root_nonempty false _ Er) as [R [rest ->]].
  exists R, rest. split; reflexivity.
Qed.

End RotorBetween.

(** ** RotorExponential *)

Section RotorExponential.
Context {L : Layout float} {M : Libm float}.

Lemma unit_scalar_mv_value : value unit_scalar_mv = identity_versor.
Proof. vm_compute. reflexivity. Qed.

Lemma zero_bivector_negligible :
  (np_sum (np_abs (np_zeros (K := float) 32)) <? finfo_eps)%K = true.
Proof. vm_compute. reflexivity. Qed.

(** C4: a bivector whose absolute coefficients sum to less than the machine
    epsilon is mapped to the identity versor, and so is the zero
    bivector. *)
Theorem ga_exp_identity (B : MultiVector float) :
  (np_sum (np_abs (value B)) <? finfo_eps)%K = true ->
  ga_exp B = Ok (MV identity_versor)
  /\ ga_exp (MV (np_zeros (K := float) 32)) = Ok (MV identity_versor).
Proof.
  intros Hsmall. unfold ga_exp.
  rewrite Hsmall. cbn [value].
  rewrite zero_bivector_negligible, unit_scalar_mv_value.
  split; reflexivity.
Qed.

End RotorExponential.

(** ** RotorApplicator *)

Section RotorApplicator.
Context {K : Type} `{Scalar K} `{Layout K}.


End RotorApplicator.

(** ** Finite sums of reals *)

Section Sums.
Local Open Scope R_scope.

Lemma fold_left_plus (f : nat -> R) (l : list nat) (a : R) :
  fold_left (fun acc k => acc + f k) l a = a + bigsum f l.
Proof.
  unfold bigsum. revert a.
  induction l as [|x l IH]; intros a; cbn [fold_left].
  - ring.
  - rewrite IH, (IH (0 + f x)). ring.
Qed.

Lemma bigsum_nil (f : nat -> R) : bigsum f [] = 0.
Proof. reflexivity. Qed.

Lemma bigsum_cons (f : nat -> R) (x : nat) (l : list nat) :
  bigsum f (x :: l) = f x + bigsum f l.
Proof.
  unfold bigsum at 1. cbn [fold_left]. rewrite fold_left_plus. ring.
Qed.

Lemma bigsum_ext (f g : nat -> R) (l : list nat) :
  (forall k, In k l -> f k = g k) -> bigsum f l = bigsum g l.
Proof.
  induction l as [|x l IH]; intros E; [reflexivity|].
  rewrite !bigsum_cons, IH, (E x); [reflexivity|now left|].
  intros k Hk. apply E. now right.
Qed.

Lemma bigsum_scale (c : R) (f : nat -> R) (l : list nat) :
  bigsum (fun k => c * f k) l = c * bigsum f l.
Proof.
  induction l as [|x l IH]; [rewrite !bigsum_nil; ring|].
  rewrite !bigsum_cons, IH. ring.
Qed.

Lemma bigsum_add (f g : nat -> R) (l : list nat) :
  bigsum (fun k => f k + g k) l = bigsum f l + bigsum g l.
Proof.
  induction l as [|x l IH]; [rewrite !bigsum_nil; ring|].
  rewrite !bigsum_cons, IH. ring.
Qed.

Lemma bigsum_zero (l : list nat) : bigsum (fun _ => 0) l = 0.
Proof.
  induction l as [|x l IH]; [reflexivity|].
  rewrite bigsum_cons, IH. ring.
Qed.

Lemma bigsum_swap (F : nat -> nat -> R) (l1 l2 : list nat) :
  bigsum (fun k => bigsum (fun i => F k i) l2) l1 =
  bigsum (fun i => bigsum (fun k => F k i) l1) l2.
Proof.
  induction l1 as [|x l1 IH].
  - rewrite bigsum_nil. symmetry. apply bigsum_zero.
  - rewrite bigsum_cons, IH, <- bigsum_add.
    apply bigsum_ext. intros i _. now rewrite bigsum_cons.
Qed.

Lemma bigsum_perm (f : nat -> R) (l l' : list nat) :
  Permutation l l' -> bigsum f l = bigsum f l'.
Proof.
  induction 1 as [|x l l' _ IH|x y l|l l' l'' _ IH1 _ IH2].
  - reflexivity.
  - now rewrite !bigsum_cons, IH.
  - rewrite !bigsum_cons. ring.
  - now rewrite IH1.
Qed.

Lemma bigsum_map (f : nat -> R) (s : nat -> nat) (l : list nat) :
  bigsum f (map s l) = bigsum (fun k => f (s k)) l.
Proof.
  induction l as [|x l IH]; [reflexivity|].
  cbn [map]. now rewrite !bigsum_cons, IH.
Qed.

(** A map that sends a duplicate-free list into itself and undoes itself
    there permutes the list. *)
Lemma involution_permutation (s : nat -> nat) (l : list nat) :
  NoDup l ->
  (forall k, In k l -> In (s k) l /\ s (s k) = k) ->
  Permutation (map s l) l.
Proof.
  intros Hnd Hs.
  apply NoDup_Permutation_bis.
  - apply Finite.Injective_map_NoDup_in; [|exact Hnd].
    intros x y Hx Hy E.
    rewrite <- (proj2 (Hs x Hx)), <- (proj2 (Hs y Hy)). now rewrite E.
  - rewrite length_map. apply le_n.
  - intros y Hy. apply in_map_iff in Hy as [x [<- Hx]]. apply Hs, Hx.
Qed.

Lemma bigsum_reindex (f : nat -> R) (s : nat -> nat) (l : list nat) :
  NoDup l ->
  (forall k, In k l -> In (s k) l /\ s (s k) = k) ->
  bigsum f l = bigsum (fun k => f (s k)) l.
Proof.
  intros Hnd Hs. rewrite <- (bigsum_map f s l).
  symmetry. apply bigsum_perm, involution_permutation; assumption.
Qed.


Lemma bigsum_scale_r (c : R) (f : nat -> R) (l : list nat) :
  (bigsum f l * c)%R = bigsum (fun k => (f k * c)%R) l.
Proof.
  rewrite Rmult_comm, <- bigsum_scale. apply bigsum_ext.
  intros k _. apply Rmult_comm.
Qed.

End Sums.

(** ** Exact arithmetic: identities under the laws of the backend *)

Ltac to_R :=
  cbn [add sub mul div opp absv of_Z ltb np_sqrt math_sqrt lit_1e_10
       finfo_eps R_scalar] in *.

Tactic Notation "entrywise" tactic3(tac) :=
  repeat (apply f_equal2; [tac|]); try reflexivity.

Section Exact.
Context {L : Layout R} {laws : LayoutLaws L}.
Local Open Scope R_scope.

Lemma Rltb_true (x y : R) : x < y -> Rltb x y = true.
Proof. intros Hlt. unfold Rltb. destruct (Rlt_dec x y); [reflexivity|lra]. Qed.

Lemma Rltb_false (x y : R) : y <= x -> Rltb x y = false.
Proof. intros Hle. unfold Rltb. destruct (Rlt_dec x y); [lra|reflexivity]. Qed.

(** In exact arithmetic a [dorst_norm] that is a square root leaves only
    Case A and Case C: Case B and the else case need a comparison that is
    false both ways, as with a NaN. *)
Lemma classify_exact (s0 n : R) :
  0 <= n -> classify s0 n = CaseA \/ classify s0 n = CaseC.
Proof.
  intros Hn. unfold classify. to_R.
  destruct (Rlt_dec 0 (s0 + n)) as [Ha|Ha].
  - left. now rewrite (Rltb_true Ha).
  - right. rewrite (Rltb_false (x := 0) (y := s0 + n)) by lra.
    rewrite (Rltb_false (x := 0) (y := s0 - n)) by lra.
    rewrite (Rltb_true (x := s0 + n) (y := / 10000000000)) by lra.
    reflexivity.
Qed.

Lemma nth_np_scale (c : R) (u : list R) (k : nat) :
  nth k (np_scale c u) 0 = c * nth k u 0.
Proof.
  unfold np_scale. revert k.
  induction u as [|x u IH]; intros [|k]; cbn [map nth]; to_R; try ring.
  apply IH.
Qed.

Lemma np_div_scale (u : list R) (c : R) : np_div u c = np_scale (/ c) u.
Proof.
  unfold np_div, np_scale. apply map_ext. intros x. to_R.
  unfold Rdiv. ring.
Qed.

Lemma scalar_val_length (a : R) : length (scalar_val a) = 32%nat.
Proof. reflexivity. Qed.

Lemma scalar_val_neg (a : R) : np_neg (scalar_val a) = scalar_val (- a).
Proof.
  unfold np_neg, scalar_val, np_zeros. cbn [repeat map]. to_R.
  entrywise ring.
Qed.

Lemma scalar_val_add (a b : R) :
  np_add (scalar_val a) (scalar_val b) = scalar_val (a + b).
Proof.
  unfold np_add, scalar_val, np_zeros. cbn [repeat map2]. to_R.
  entrywise ring.
Qed.

Lemma scalar_val_scale (c a : R) :
  np_scale c (scalar_val a) = scalar_val (c * a).
Proof.
  unfold np_scale, scalar_val, np_zeros. cbn [repeat map]. to_R.
  entrywise ring.
Qed.

Lemma scalar_val_div (a c : R) :
  np_div (scalar_val a) c = scalar_val (a / c).
Proof.
  rewrite np_div_scale, scalar_val_scale. f_equal. unfold Rdiv. ring.
Qed.

Lemma grade4_scalar_val (s : R) :
  value (mv_grade (MV (scalar_val s)) 4) = np_scale 0 (scalar_val s).
Proof.
  unfold mv_grade, np_scale, scalar_val, np_zeros.
  cbn [value gradeList flat_map seq band_sizes nth repeat app Z.of_nat map2
       map Pos.of_succ_nat Pos.succ Z.eqb Pos.eqb].
  to_R. entrywise ring.
Qed.

Lemma gmt_zero_head (u w : list R) :
  nth 0 (gmt_func (np_scale 0 u) w) 0 = 0.
Proof. rewrite gmt_scale_l, nth_np_scale. ring. Qed.


Lemma getitem_scalar (sigma : MultiVector R) (s : R) :
  value sigma = scalar_val s -> mv_getitem sigma 0 = s.
Proof. intros Hs. unfold mv_getitem. rewrite Hs. reflexivity. Qed.

Lemma dorst_norm_scalar (sigma : MultiVector R) (s : R) :
  value sigma = scalar_val s -> dorst_norm_val sigma = Ok (Rabs s).
Proof.
  intros Hs. unfold dorst_norm_val.
  rewrite (getitem_scalar sigma Hs).
  destruct sigma as [v]. cbn [value] in Hs. subst v.
  unfold mv_getitem, mv_pow. cbn [Nat.sub mv_pow_loop mv_mul value].
  rewrite grade4_scalar_val.
  change (of_Z 0) with 0. rewrite gmt_zero_head. to_R.
  rewrite Rltb_false by nra.
  replace (s * s - 0) with (Rsqr s) by (unfold Rsqr; ring).
  rewrite sqrt_Rsqr_abs. reflexivity.
Qed.

Lemma mag2_scale (q : R) (v : list R) :
  mv_mag2 (MV (np_scale q v)) = q * (q * mv_mag2 (MV v)).
Proof.
  unfold mv_mag2, mv_getitem, mv_mul, mv_reverse. cbn [value].
  change (of_Z 0) with 0.
  rewrite adjoint_scale, gmt_scale_l, gmt_scale_r, !nth_np_scale.
  reflexivity.
Qed.

Lemma normal_scale (q : R) (v : list R) :
  0 < q -> mv_mag2 (MV v) <> 0 ->
  mv_normal (MV (np_scale q v)) = mv_normal (MV v).
Proof.
  intros Hq Hm. unfold mv_normal, mv_abs, mv_div_scalar. cbn [value].
  rewrite mag2_scale. to_R.
  set (m := mv_mag2 (MV v)) in *.
  assert (HA : 0 < sqrt (Rabs m)) by (apply sqrt_lt_R0, Rabs_pos_lt, Hm).
  assert (E : sqrt (Rabs (q * (q * m))) = q * sqrt (Rabs m)).
  { rewrite <- Rmult_assoc, Rabs_mult, (Rabs_pos_eq (q * q)) by nra.
    rewrite sqrt_mult by (try apply Rabs_pos; nra).
    rewrite sqrt_square by lra. reflexivity. }
  rewrite E. f_equal. unfold np_div, np_scale. rewrite map_map.
  apply map_ext. intros x. to_R. field. lra.
Qed.

Lemma normal_idem (v : list R) :
  mv_mag2 (MV v) <> 0 -> mv_normal (mv_normal (MV v)) = mv_normal (MV v).
Proof.
  intros Hm. unfold mv_normal at 2. unfold mv_div_scalar. cbn [value].
  rewrite np_div_scale. apply normal_scale; [|exact Hm].
  apply Rinv_0_lt_compat. unfold mv_abs. to_R.
  apply sqrt_lt_R0, Rabs_pos_lt, Hm.
Qed.

(** With a non-zero scalar [sigma] both variants of the root finder return
    the single root [C.normal()]: through Case A when [sigma] is positive,
    through Case C when it is negative. *)
Lemma twiddle_root_scalar_sigma (negative : bool) (C : MultiVector R)
    (s : R) :
  length (value C) = 32%nat ->
  value (twiddle_sigma negative C) = scalar_val s ->
  s <> 0 -> mv_mag2 C <> 0 ->
  twiddle_root negative C = Ok [mv_normal C].
Proof.
  intros Hlen Hs Hs0 Hm.
  rewrite twiddle_root_unfold. cbv zeta.
  set (sigma := twiddle_sigma negative C) in *.
  unfold check_sigma_for_positive_root, check_sigma_for_negative_root,
    check_infinite_roots, positive_root.
  rewrite (dorst_norm_scalar sigma Hs), (getitem_scalar sigma Hs).
  cbn [bind]. to_R.
  destruct (Rlt_dec 0 s) as [Hpos|Hneg].
  - rewrite (Rabs_pos_eq s) by lra.
    rewrite (Rltb_true (x := 0) (y := s + s)) by lra.
    rewrite (Rltb_false (x := 2) (y := 0)) by lra.
    rewrite (Rltb_false (x := s + s) (y := 0)) by lra.
    cbn [bind].
    assert (H2 : 0 < sqrt 2) by (apply sqrt_lt_R0; lra).
    assert (Hss : 0 < sqrt (s + s)) by (apply sqrt_lt_R0; lra).
    set (k := (s + s) / (sqrt 2 * sqrt (s + s))).
    assert (Hk : 0 < k).
    { unfold k. apply Rdiv_lt_0_compat; [lra|]. apply Rmult_lt_0_compat; lra. }
    unfold mv_rdiv_scalar, mv_inv, mv_div_scalar, mv_add_scalar, mv_mul.
    cbn [value]. rewrite Hs, scalar_val_add, scalar_val_div.
    fold k. rewrite inv_scalar by lra. cbn [bind value].
    rewrite (gmt_scalar_l 1 _ (scalar_val_length (/ k))), scalar_val_scale.
    rewrite (gmt_scalar_l _ _ Hlen).
    destruct C as [v]. cbn [value] in *.
    rewrite normal_scale; [reflexivity| |exact Hm].
    assert (0 < / k) by (apply Rinv_0_lt_compat; exact Hk). lra.
  - rewrite (Rabs_left s) by lra.
    rewrite (Rltb_false (x := 0) (y := s + - s)) by lra.
    rewrite (Rltb_false (x := 0) (y := s - - s)) by lra.
    rewrite (Rltb_true (x := s + - s) (y := / 10000000000)) by lra.
    reflexivity.
Qed.


Lemma neg_twiddle_root_valid (X : MultiVector R) :
  valid_object X -> neg_twiddle_root X = Ok [mv_normal X].
Proof.
  intros (Hlen & (t & Ht & Hsig) & Hm).
  apply (twiddle_root_scalar_sigma true X (s := - t)); try assumption.
  - cbn [twiddle_sigma mv_neg value]. rewrite Hsig. apply scalar_val_neg.
  - lra.
Qed.






End Exact.

(** ** The laws of the G(4,1) kernels over the reals *)

Module G41R.
Import G41.
Local Open Scope R_scope.

Definition entry (u w : list R) (l : nat) : R :=
  bigsum (fun k => coef u k * IZR (sg k (idx k l)) * coef w (idx k l)) range.

Definition check_assoc (i j l : nat) : bool :=
  (idx i (idx i j) =? j)%nat && (idx i j <? 32)%nat
  && (idx (idx i j) l =? idx j (idx i l))%nat
  && (sg i j * sg (idx i j) (idx (idx i j) l)
      =? sg i (idx i l) * sg j (idx j (idx i l)))%Z.

Definition check_anti (k l : nat) : bool :=
  (idx (idx k l) l =? k)%nat && (idx k l <? 32)%nat
  && (rs l * sg k (idx k l) =? rs (idx k l) * sg (idx k l) k * rs k)%Z.

Lemma check_assoc_all :
  forallb (fun i => forallb (fun j => forallb (check_assoc i j) range) range)
    range = true.
Proof. vm_compute. reflexivity. Qed.

Lemma check_anti_all :
  forallb (fun k => forallb (check_anti k) range) range = true.
Proof. vm_compute. reflexivity. Qed.

Lemma assoc_facts (i j l : nat) :
  In i range -> In j range -> In l range ->
  idx i (idx i j) = j /\ In (idx i j) range
  /\ idx (idx i j) l = idx j (idx i l)
  /\ (sg i j * sg (idx i j) (idx (idx i j) l)
      = sg i (idx i l) * sg j (idx j (idx i l)))%Z.
Proof.
  intros Hi Hj Hl.
  pose proof check_assoc_all as A.
  rewrite forallb_forall in A. specialize (A i Hi).
  rewrite forallb_forall in A. specialize (A j Hj).
  rewrite forallb_forall in A. specialize (A l Hl).
  unfold check_assoc in A.
  apply andb_prop in A as [A A4]. apply andb_prop in A as [A A3].
  apply andb_prop in A as [A1 A2].
  apply Nat.eqb_eq in A1, A3. apply Nat.ltb_lt in A2. apply Z.eqb_eq in A4.
  repeat split; try assumption.
  apply in_seq. lia.
Qed.

Lemma anti_facts (k l : nat) :
  In k range -> In l range ->
  idx (idx k l) l = k /\ In (idx k l) range
  /\ (rs l * sg k (idx k l) = rs (idx k l) * sg (idx k l) k * rs k)%Z.
Proof.
  intros Hk Hl.
  pose proof check_anti_all as A.
  rewrite forallb_forall in A. specialize (A k Hk).
  rewrite forallb_forall in A. specialize (A l Hl).
  unfold check_anti in A.
  apply andb_prop in A as [A A3]. apply andb_prop in A as [A1 A2].
  apply Nat.eqb_eq in A1. apply Nat.ltb_lt in A2. apply Z.eqb_eq in A3.
  repeat split; try assumption.
  apply in_seq. lia.
Qed.

Lemma range_NoDup : NoDup range.
Proof. apply seq_NoDup. Qed.

Lemma coef_table (f : nat -> R) (k : nat) :
  In k range -> coef (map f range) k = f k.
Proof.
  intros Hk. apply in_seq in Hk. unfold coef, range.
  rewrite (nth_indep _ (of_Z 0) (f 0%nat)) by (rewrite length_map, length_seq; lia).
  rewrite map_nth, seq_nth by lia. reflexivity.
Qed.

Lemma gmt_entry (u w : list R) : gmt u w = map (entry u w) range.
Proof. reflexivity. Qed.

Lemma coef_gmt (u w : list R) (k : nat) :
  In k range -> coef (gmt u w) k = entry u w k.
Proof. intros Hk. rewrite gmt_entry. apply coef_table, Hk. Qed.

Lemma gmt_assoc (a b c : list R) : gmt (gmt a b) c = gmt a (gmt b c).
Proof.
  rewrite (gmt_entry (gmt a b) c), (gmt_entry a (gmt b c)).
  apply map_ext_in. intros l Hl. unfold entry.
  transitivity
    (bigsum (fun k => bigsum (fun i =>
       coef a i * IZR (sg i (idx i k)) * coef b (idx i k)
       * IZR (sg k (idx k l)) * coef c (idx k l)) range) range).
  { apply bigsum_ext. intros k Hk.
    rewrite (coef_gmt a b Hk). unfold entry.
    rewrite !bigsum_scale_r. reflexivity. }
  rewrite bigsum_swap.
  apply bigsum_ext. intros i Hi.
  destruct (assoc_facts Hi Hl Hl) as (_ & Hil & _).
  rewrite (coef_gmt b c Hil). unfold entry. rewrite <- bigsum_scale.
  rewrite (bigsum_reindex _ (idx i) range_NoDup).
  2:{ intros k Hk. destruct (assoc_facts Hi Hk Hl) as (E & Hin & _).
      split; assumption. }
  apply bigsum_ext. intros j Hj.
  destruct (assoc_facts Hi Hj Hl) as (E1 & _ & E3 & E4).
  rewrite E1, E3.
  apply (f_equal IZR) in E4. rewrite !mult_IZR in E4.
  transitivity
    (IZR (sg i j) * IZR (sg (idx i j) (idx j (idx i l)))
     * (coef a i * coef b j * coef c (idx j (idx i l)))); [ring|].
  rewrite <- E3 at 1. rewrite E4. ring.
Qed.


Lemma adjoint_entry (u : list R) :
  adjoint u = map (fun i => IZR (rs i) * coef u i) range.
Proof. reflexivity. Qed.

Lemma coef_adjoint (u : list R) (k : nat) :
  In k range -> coef (adjoint u) k = IZR (rs k) * coef u k.
Proof.
  intros Hk. rewrite adjoint_entry.
  exact (coef_table (fun i => IZR (rs i) * coef u i) Hk).
Qed.

Lemma adjoint_anti (a b : list R) :
  adjoint (gmt a b) = gmt (adjoint b) (adjoint a).
Proof.
  rewrite (adjoint_entry (gmt a b)), (gmt_entry (adjoint b) (adjoint a)).
  apply map_ext_in. intros l Hl.
  rewrite (coef_gmt a b Hl). unfold entry. rewrite <- bigsum_scale.
  symmetry.
  rewrite (bigsum_reindex _ (fun k => idx k l) range_NoDup).
  2:{ intros k Hk. destruct (anti_facts Hk Hl) as (E & Hin & _).
      split; assumption. }
  apply bigsum_ext. intros k Hk.
  destruct (anti_facts Hk Hl) as (E1 & Hin & E3).
  rewrite E1, (coef_adjoint b Hin), (coef_adjoint a Hk).
  apply (f_equal IZR) in E3. rewrite !mult_IZR in E3.
  transitivity
    (IZR (rs (idx k l)) * IZR (sg (idx k l) k) * IZR (rs k)
     * (coef a k * coef b (idx k l))); [ring|].
  rewrite <- E3. ring.
Qed.

Lemma nth_scale (c : R) (u : list R) (k : nat) :
  nth k (np_scale c u) 0 = c * nth k u 0.
Proof.
  unfold np_scale. revert k.
  induction u as [|x u IH]; intros [|k]; cbn [map nth mul R_scalar];
    try ring.
  apply IH.
Qed.

Lemma coef_scale (c : R) (u : list R) (k : nat) :
  coef (np_scale c u) k = c * coef u k.
Proof. apply nth_scale. Qed.

Lemma scale_table (c : R) (f : nat -> R) :
  np_scale c (map f range) = map (fun l => c * f l) range.
Proof. unfold np_scale. rewrite map_map. reflexivity. Qed.

Lemma gmt_scale_l (c : R) (u w : list R) :
  gmt (np_scale c u) w = np_scale c (gmt u w).
Proof.
  rewrite (gmt_entry u w), scale_table, gmt_entry.
  apply map_ext_in. intros l Hl. unfold entry.
  rewrite <- bigsum_scale. apply bigsum_ext. intros k _.
  rewrite coef_scale. ring.
Qed.

Lemma gmt_scale_r (c : R) (u w : list R) :
  gmt u (np_scale c w) = np_scale c (gmt u w).
Proof.
  rewrite (gmt_entry u w), scale_table, gmt_entry.
  apply map_ext_in. intros l Hl. unfold entry.
  rewrite <- bigsum_scale. apply bigsum_ext. intros k _.
  rewrite coef_scale. ring.
Qed.

Lemma adjoint_scale (c : R) (u : list R) :
  adjoint (np_scale c u) = np_scale c (adjoint u).
Proof.
  rewrite (adjoint_entry u), scale_table, adjoint_entry.
  apply map_ext_in. intros l _. rewrite coef_scale. ring.
Qed.

Lemma table_of_list (w : list R) :
  length w = 32%nat -> w = map (coef w) range.
Proof.
  intros Hlen.
  do 32 (destruct w as [|? w]; [discriminate Hlen|]).
  destruct w; [reflexivity|discriminate Hlen].
Qed.

Definition check_unit (l : nat) : bool :=
  (idx 0 l =? l)%nat && (sg 0 l =? 1)%Z.

Lemma check_unit_all : forallb check_unit range = true.
Proof. vm_compute. reflexivity. Qed.

Lemma coef_scalar_val (a : R) (k : nat) :
  coef (scalar_val a) (S k) = 0.
Proof.
  unfold coef, scalar_val, np_zeros. cbn [nth].
  destruct (Nat.lt_ge_cases k 31) as [Hk|Hk].
  - rewrite nth_repeat_lt by exact Hk. reflexivity.
  - rewrite nth_overflow by (rewrite repeat_length; exact Hk). reflexivity.
Qed.

Lemma gmt_scalar_l (a : R) (w : list R) :
  length w = 32%nat -> gmt (scalar_val a) w = np_scale a w.
Proof.
  intros Hlen.
  rewrite (table_of_list w Hlen) at 2. rewrite scale_table, gmt_entry.
  apply map_ext_in. intros l Hl. unfold entry.
  pose proof check_unit_all as U. rewrite forallb_forall in U.
  specialize (U l Hl). unfold check_unit in U.
  apply andb_prop in U as [U1 U2].
  apply Nat.eqb_eq in U1. apply Z.eqb_eq in U2.
  change range with (0%nat :: seq 1 31). rewrite bigsum_cons.
  rewrite (bigsum_ext _ (fun _ => 0)).
  - rewrite bigsum_zero, U1, U2. unfold coef at 1. cbn [scalar_val nth]. ring.
  - intros k Hk. apply in_seq in Hk.
    destruct k as [|k]; [lia|]. rewrite coef_scalar_val. ring.
Qed.

Lemma nonzero_zero : nonzero (K := R) 0 = false.
Proof. unfold nonzero. to_R. rewrite Rabs_R0. apply Rltb_false. lra. Qed.

Lemma adjoint_scalar_val (a : R) : adjoint (scalar_val a) = scalar_val a.
Proof.
  cbv -[Rplus Rmult Rminus Ropp Rdiv Rinv IZR].
  entrywise ring.
Qed.

Lemma inv_scalar_val (a : R) :
  a <> 0 -> inv (scalar_val a) = Ok (scalar_val (/ a)).
Proof.
  intros Ha. unfold inv.
  rewrite adjoint_scalar_val.
  rewrite (gmt_scalar_l a _ (scalar_val_length a)), scalar_val_scale.
  change (coef (scalar_val (a * a)) 0) with (a * a).
  change (tl (scalar_val (a * a))) with (np_zeros (K := R) 31).
  unfold np_zeros. cbn [repeat forallb]. change (of_Z 0) with 0.
  rewrite !nonzero_zero. cbn [negb andb].
  assert (Hnz : nonzero (a * a) = true).
  { unfold nonzero. to_R. apply Rltb_true, Rabs_pos_lt. nra. }
  rewrite Hnz. cbn [andb].
  replace (/ a) with (a / (a * a)) by (field; exact Ha).
  rewrite <- scalar_val_div. reflexivity.
Qed.

#[export] Instance laws : LayoutLaws G41.layout := {
  gmt_assoc := gmt_assoc;
  adjoint_anti := adjoint_anti;
  gmt_scale_l := gmt_scale_l;
  gmt_scale_r := gmt_scale_r;
  adjoint_scale := adjoint_scale;
  gmt_scalar_l := gmt_scalar_l;
  inv_scalar := inv_scalar_val
}.

End G41R.

Lemma project_val_idempotent_witness :
  exists out,
    project_val (map float_of_Z
      [1; 2; 3; 4; 5; 6; 7; 8; 9; 10; 11; 12; 13; 14; 15; 16; 17; 18; 19; 20;
       21; 22; 23; 24; 25; 26; 27; 28; 29; 30; 31; 32]%Z) 2 = Ok out
    /\ project_val out 2 = Ok out
    /\ length out = 32%nat
    /\ forall i, (i < 32)%nat ->
         nth i out (of_Z 0) =
         if in_band 2 i
         then nth i (map float_of_Z
           [1; 2; 3; 4; 5; 6; 7; 8; 9; 10; 11; 12; 13; 14; 15; 16; 17; 18; 19;
            20; 21; 22; 23; 24; 25; 26; 27; 28; 29; 30; 31; 32]%Z) (of_Z 0)
         else of_Z 0.
Proof.
  apply (@project_val_idempotent float float_scalar
           (map float_of_Z
      [1; 2; 3; 4; 5; 6; 7; 8; 9; 10; 11; 12; 13; 14; 15; 16; 17; 18; 19; 20;
       21; 22; 23; 24; 25; 26; 27; 28; 29; 30; 31; 32]%Z) 2).
  - reflexivity.
  - lia.
Defined.

Lemma project_val_out_of_range_witness :
  project_val (K := float) [1%float; 2%float] 6 = Ok (np_zeros 32).
Proof.
  apply (@project_val_out_of_range float float_scalar [1%float; 2%float] 6).
  right. lia.
Defined.

(** ** Runs on the G(4,1) instance *)

Section Runs.
Import Examples.
#[local] Existing Instance G41.layout.
#[local] Existing Instance Series.libm.
#[local] Existing Instance G41R.laws.
Local Open Scope R_scope.




Lemma no_root_raises_witness :
  dorst_norm_val (twiddle_sigma true with_nan) = Ok nan
  /\ twiddle_root true with_nan = Raise no_root_exists
  /\ forall roots, twiddle_root true with_nan <> Ok roots.
Proof.
  split; [vm_compute; reflexivity|].
  apply (no_root_raises true with_nan (n := nan)); vm_compute; reflexivity.
Defined.

Lemma ga_exp_identity_witness :
  ga_exp tiny_bivector = Ok (MV identity_versor)
  /\ ga_exp (MV (np_zeros (K := float) 32)) = Ok (MV identity_versor).
Proof.
  apply (ga_exp_identity tiny_bivector).
  vm_compute. reflexivity.
Defined.

(** [rotor_between_objects(e1, e2)] takes the root-finder branch (the scalar
    part of [e1 * e1] is 1) and returns the one root found for
    [1 + e2 * e1]; from [e5], whose square is -1, it takes the other. *)
Example rotor_between_objects_run :
  (exists rotor,
      rotor_between_objects (K := float) (MV (basis 1)) (MV (basis 2))
      = Ok rotor
      /\ pos_twiddle_root
           (mv_add_scalar (mv_mul (MV (basis 2)) (MV (basis 1))) 1%float)
         = Ok [rotor])
  /\ rotor_between_objects (K := float) e5 (MV (basis 2))
     = Ok (mv_normal
             (mv_rsub_scalar 1%float (mv_mul (MV (basis 2)) e5))).
Proof.
  split; [eexists; split|]; vm_compute; reflexivity.
Qed.


Lemma e5_R_valid : valid_object e5_R.
Proof.
  split; [reflexivity|]. split.
  - exists (-1). split; [lra|].
    cbv -[Rplus Rmult Rminus Ropp Rdiv Rinv IZR]. entrywise ring.
  - intros E. cbv -[Rplus Rmult Rminus Ropp Rdiv Rinv IZR] in E. lra.
Qed.







End Runs.

(** * Further properties *)

(** ** Floating point: signs of products and square roots *)

Section FloatSigns.

Lemma binary_round_aux_not_negative (prec emax mx ex : Z)
    (lx : SpecFloat.location) :
  SFltb (SpecFloat.binary_round_aux prec emax false mx ex lx)
    (S754_zero false) = false.
Proof.
  unfold SpecFloat.binary_round_aux.
  destruct (SpecFloat.shr_fexp prec emax mx ex lx) as [mrs' e'].
  destruct (SpecFloat.shr_fexp prec emax _ e' SpecFloat.loc_Exact)
    as [mrs'' e''].
  destruct (SpecFloat.shr_m mrs'') as [|m|m]; [reflexivity| |reflexivity].
  destruct (e'' <=? emax - prec)%Z; reflexivity.
Qed.

(** [-2.0 * x] is not below zero when [x] is. *)
Lemma minus_two_times_negative (x : float) :
  (x <? 0)%float = true -> (float_of_Z (-2) * x <? 0)%float = false.
Proof.
  rewrite !ltb_spec, mul_spec.
  change (Prim2SF 0) with (S754_zero false).
  change (Prim2SF (float_of_Z (-2)))
    with (S754_finite true 4503599627370496 (-51)).
  destruct (Prim2SF x) as [s|s| |s m e]; cbn; try discriminate.
  - destruct s; [reflexivity|discriminate].
  - destruct s; [|discriminate]. intros _.
    apply binary_round_aux_not_negative.
Qed.

(** A square root is never below zero. *)
Lemma sqrt_not_negative (y : float) :
  (PrimFloat.sqrt y <? 0)%float = false.
Proof.
  rewrite ltb_spec, sqrt_spec.
  change (Prim2SF 0) with (S754_zero false).
  destruct (Prim2SF y) as [s|s| |s m e]; cbn; try reflexivity.
  - destruct s; reflexivity.
  - destruct s; [reflexivity|].
    destruct (SpecFloat.SFsqrt_core_binary prec emax (Z.pos m) e)
      as [[mz ez] lz].
    apply binary_round_aux_not_negative.
Qed.

End FloatSigns.

Section EuclideanDistance.
Context {L : Layout float}.

(** X1: on floats, for every backend and every pair of arguments,
    [euc_dist] raises nothing ([math.sqrt] is only called on [-2.0 * dot]
    with [dot < 0.0]) and its result is never below zero; it is [0.0]
    unless the inner product is negative. *)
Theorem euc_dist_total (a b : MultiVector float) :
  exists d,
    euc_dist a b = Ok d
    /\ (d <? 0)%float = false
    /\ ((mv_getitem (mv_or a b) 0 <? 0)%float = false -> d = 0%float).
Proof.
  unfold euc_dist.
  cbn [ltb mul of_Z math_sqrt float_scalar].
  change (float_of_Z 0) with 0%float.
  destruct (mv_getitem (mv_or a b) 0 <? 0)%float eqn:Edot.
  - rewrite (minus_two_times_negative Edot).
    eexists. split; [reflexivity|]. split; [apply sqrt_not_negative|].
    discriminate.
  - exists 0%float. split; [reflexivity|]. split; reflexivity.
Qed.

End EuclideanDistance.

(** ** Errors of the root finders and of their callers *)

Section DomainError.
Context {L : Layout float}.

(** X2: on floats, for every backend: when the radicand
    [sigma[0] ** 2 - (sigma(4) ** 2)[0]] is negative, [dorst_norm_val]
    raises [ValueError('math domain error')], and so does each root finder,
    at its first test (not 'No root exists'). *)
Theorem negative_radicand_raises (negative : bool) (C : MultiVector float) :
  let sigma := twiddle_sigma negative C in
  let s0 := mv_getitem sigma 0 in
  (s0 * s0 - mv_getitem (mv_pow (mv_grade sigma 4) 2) 0 <? 0)%float = true ->
  dorst_norm_val sigma = Raise domain_error
  /\ twiddle_root negative C = Raise domain_error.
Proof.
  cbv zeta. intros Hneg.
  assert (Hd : dorst_norm_val (twiddle_sigma negative C) = Raise domain_error).
  { unfold dorst_norm_val. cbn [math_sqrt float_scalar mul sub].
    rewrite Hneg. reflexivity. }
  split; [exact Hd|].
  rewrite twiddle_root_unfold. cbv zeta.
  unfold check_sigma_for_positive_root. rewrite Hd. reflexivity.
Qed.

End DomainError.

Section CallerErrors.
Context {K : Type} `{Scalar K} `{Layout K}.
Local Open Scope K_scope.

(** X3: [interp_objects_root] and [average_objects] on a non-empty list
    raise exactly when [neg_twiddle_root] raises on the combination they
    form, and then the same exception: taking entry [0] of the roots and
    normalizing it never fail. *)
Theorem interpolation_errors (C1 C2 X : MultiVector K)
    (rest : list (MultiVector K)) (alpha : K) (e : exn) :
  (interp_objects_root C1 C2 alpha = Raise e
   <-> neg_twiddle_root
         (mv_add (mv_scale alpha C1) (mv_scale (of_Z 1 - alpha) C2))
       = Raise e)
  /\ (average_objects (X :: rest) = Raise e
      <-> neg_twiddle_root
            (mv_div_scalar
               (fold_left mv_add rest (mv_add_scalar X (of_Z 0)))
               (of_Z (Z.of_nat (length (X :: rest)))))
          = Raise e).
Proof.
  unfold interp_objects_root, average_objects.
  split.
  - destruct (neg_twiddle_root _) as [roots|e'] eqn:Er; cbn [bind].
    + destruct (twiddle_root_nonempty true _ Er) as [r [tl ->]].
      cbn. split; discriminate.
    + split; intros E; injection E as <-; reflexivity.
  - destruct (neg_twiddle_root _) as [roots|e'] eqn:Er; cbn [bind].
    + destruct (twiddle_root_nonempty true _ Er) as [r [tl ->]].
      cbn. split; discriminate.
    + split; intros E; injection E as <-; reflexivity.
Qed.

End CallerErrors.

(** ** Exact arithmetic, any backend *)

Section ExactAnyBackend.
Context {L : Layout R}.
Local Open Scope R_scope.

Lemma dorst_norm_not_negative (sigma : MultiVector R) (n : R) :
  dorst_norm_val sigma = Ok n -> 0 <= n.
Proof.
  unfold dorst_norm_val. to_R.
  destruct (Rltb _ 0); [discriminate|].
  intros E. injection E as <-. apply sqrt_pos.
Qed.

(** X4: in exact arithmetic, for every backend: whenever the test of
    Case A has failed, the test of Case B fails and the test of Case C
    holds, and the finder returns [[C.normal()]]; so neither the two-root
    branch nor the else case 'No root exists' is ever taken.  A root
    finder that returns has returned exactly one root. *)
Theorem exact_single_root (negative : bool) (C : MultiVector R) :
  let sigma := twiddle_sigma negative C in
  (check_sigma_for_positive_root sigma = Ok false ->
   check_sigma_for_negative_root sigma = Ok false
   /\ check_infinite_roots sigma = Ok true
   /\ twiddle_root negative C = Ok [mv_normal C])
  /\ (forall roots,
        twiddle_root negative C = Ok roots -> exists r, roots = [r]).
Proof.
  cbv zeta. rewrite twiddle_root_unfold. cbv zeta.
  set (sigma := twiddle_sigma negative C).
  unfold check_sigma_for_positive_root, check_sigma_for_negative_root,
    check_infinite_roots.
  destruct (dorst_norm_val sigma) as [n|e] eqn:En; cbn [bind];
    [|split; discriminate].
  pose proof (dorst_norm_not_negative sigma En) as Hn.
  set (s0 := mv_getitem sigma 0). to_R.
  destruct (Rlt_dec 0 (s0 + n)) as [Ha|Ha].
  - rewrite (Rltb_true Ha). split; [discriminate|].
    intros roots Hr.
    destruct (positive_root sigma) as [k|]; cbn [bind] in Hr;
      [|discriminate Hr].
    destruct (mv_rdiv_scalar 1 k) as [q|]; cbn [bind] in Hr;
      [|discriminate Hr].
    injection Hr as <-. eexists; reflexivity.
  - rewrite (Rltb_false (x := 0) (y := s0 + n)) by lra.
    rewrite (Rltb_false (x := 0) (y := s0 - n)) by lra.
    rewrite (Rltb_true (x := s0 + n) (y := / 10000000000)) by lra.
    cbn [bind]. split.
    + intros _. split; [reflexivity|]. split; reflexivity.
    + intros roots Hr. injection Hr as <-. eexists; reflexivity.
Qed.

Lemma lerp_swap (a : R) (u w : list R) :
  length u = length w ->
  np_add (np_scale a u) (np_scale (1 - a) w)
  = np_add (np_scale (1 - a) w) (np_scale (1 - (1 - a)) u).
Proof.
  unfold np_add, np_scale. revert w.
  induction u as [|x u IH]; intros [|y w] Hlen; try discriminate Hlen;
    [reflexivity|].
  cbn [map map2]. rewrite IH by (injection Hlen as Hlen; exact Hlen).
  f_equal. to_R. ring.
Qed.

(** X5: in exact arithmetic, for every backend and objects with as many
    coefficients: interpolating from [C1] to [C2] at [alpha] is
    interpolating from [C2] to [C1] at [1 - alpha]. *)
Theorem interp_objects_root_swap (C1 C2 : MultiVector R) (alpha : R) :
  length (value C1) = length (value C2) ->
  interp_objects_root C1 C2 alpha = interp_objects_root C2 C1 (1 - alpha).
Proof.
  intros Hlen. unfold interp_objects_root, mv_add, mv_scale.
  cbn [value]. to_R. rewrite (lerp_swap alpha _ _ Hlen). reflexivity.
Qed.

End ExactAnyBackend.

(** ** More on the grade projector *)

Section GradeBands.
Context {K : Type} `{Scalar K}.

Ltac explicit_list val Hlen :=
  do 32 (destruct val as [|? val]; [discriminate Hlen|]);
  destruct val; [clear Hlen|discriminate Hlen].

Lemma grade_range (g : Z) :
  (0 <= g <= 5)%Z ->
  g = 0%Z \/ g = 1%Z \/ g = 2%Z \/ g = 3%Z \/ g = 4%Z \/ g = 5%Z.
Proof. lia. Qed.

(** X6: projecting a 32-entry array at one grade and the result at another
    grade leaves the 32 zeros: the bands do not overlap. *)
Theorem project_val_orthogonal (val : list K) (g h : Z) :
  length val = 32%nat ->
  (0 <= g <= 5)%Z -> (0 <= h <= 5)%Z -> g <> h ->
  exists out,
    project_val val g = Ok out /\ project_val out h = Ok (np_zeros 32).
Proof.
  intros Hlen Hg Hh Hne.
  explicit_list val Hlen.
  destruct (grade_range Hg) as [E|[E|[E|[E|[E|E]]]]]; subst g;
    destruct (grade_range Hh) as [E|[E|[E|[E|[E|E]]]]]; subst h;
    try (exfalso; apply Hne; reflexivity);
    (eexists; split; reflexivity).
Qed.

(** X7: every place of a 32-entry array belongs to exactly one grade: the
    projection at that grade carries the coefficient, and the projections
    at the five other grades have a zero there. *)
Theorem project_val_partition (val : list K) (i : nat) :
  length val = 32%nat -> (i < 32)%nat ->
  exists g,
    (0 <= g <= 5)%Z
    /\ forall h out,
         (0 <= h <= 5)%Z -> project_val val h = Ok out ->
         nth i out (of_Z 0)
         = if (h =? g)%Z then nth i val (of_Z 0) else of_Z 0.
Proof.
  intros Hlen Hi.
  explicit_list val Hlen.
  exists (nth i gradeList 0%Z).
  do 32 (destruct i as [|i];
         [split; [cbn; lia|];
          intros h out Hh Hp;
          destruct (grade_range Hh) as [E|[E|[E|[E|[E|E]]]]]; subst h;
          injection Hp as <-; reflexivity|]).
  lia.
Qed.

End GradeBands.

Section GradeBandsExact.
Context {L : Layout R}.
Local Open Scope R_scope.

(** X8: in exact arithmetic [project_val] returns what the backend's grade
    projection [M(grade)] holds, for a 32-entry multivector and a grade in
    [0,5]. *)
Theorem project_val_is_grade_projection (M : MultiVector R) (g : Z) :
  length (value M) = 32%nat -> (0 <= g <= 5)%Z ->
  project_val (value M) g = Ok (value (mv_grade M g)).
Proof.
  intros Hlen Hg. destruct M as [v]. cbn [value] in *.
  do 32 (destruct v as [|? v]; [discriminate Hlen|]).
  destruct v; [clear Hlen|discriminate Hlen].
  assert (E : g = 0%Z \/ g = 1%Z \/ g = 2%Z \/ g = 3%Z \/ g = 4%Z \/ g = 5%Z)
    by lia.
  destruct E as [E|[E|[E|[E|[E|E]]]]]; subst g;
    cbv -[Rplus Rmult Rminus Ropp Rdiv Rinv IZR];
    f_equal; entrywise ring.
Qed.

End GradeBandsExact.

(** ** Averages and interpolation in exact arithmetic *)

Section ExactAverages.
Context {L : Layout R}.
Local Open Scope R_scope.

Lemma coefficient_sum_perm (l l' : list (MultiVector R)) (i : nat) :
  Permutation l l' -> coefficient_sum l i = coefficient_sum l' i.
Proof.
  unfold coefficient_sum.
  induction 1 as [|X l l' _ IH|X Y l|l l' l'' _ IH1 _ IH2];
    cbn [fold_right].
  - reflexivity.
  - now rewrite IH.
  - ring.
  - now rewrite IH1.
Qed.

Lemma np_add_places (u w : list R) :
  length u = 32%nat -> length w = 32%nat ->
  np_add u w = map (fun i => nth i u 0 + nth i w 0) (seq 0 32).
Proof.
  intros Hu Hw.
  do 32 (destruct u as [|? u]; [discriminate Hu|]).
  destruct u; [clear Hu|discriminate Hu].
  do 32 (destruct w as [|? w]; [discriminate Hw|]).
  destruct w; [reflexivity|discriminate Hw].
Qed.

Lemma places_of_list (u : list R) :
  length u = 32%nat -> u = map (fun i => nth i u 0) (seq 0 32).
Proof.
  intros Hu.
  do 32 (destruct u as [|? u]; [discriminate Hu|]).
  destruct u; [reflexivity|discriminate Hu].
Qed.

Lemma nth_places (f : nat -> R) (i : nat) :
  In i (seq 0 32) -> nth i (map f (seq 0 32)) 0 = f i.
Proof.
  intros Hi. apply in_seq in Hi.
  rewrite (nth_indep _ 0 (f 0%nat)) by (rewrite length_map, length_seq; lia).
  rewrite map_nth, seq_nth by lia. reflexivity.
Qed.

Lemma sum_of_objects (rest : list (MultiVector R)) (acc : list R) :
  Forall (fun X => length (value X) = 32%nat) rest ->
  length acc = 32%nat ->
  value (fold_left mv_add rest (MV acc))
  = map (fun i => nth i acc 0 + coefficient_sum rest i) (seq 0 32).
Proof.
  intros Hall. revert acc.
  induction Hall as [|X rest HX _ IH]; intros acc Hacc;
    cbn [fold_left coefficient_sum fold_right value].
  - rewrite (places_of_list acc Hacc) at 1.
    apply map_ext. intros i. ring.
  - unfold mv_add at 2. cbn [value].
    rewrite (np_add_places acc (value X) Hacc HX).
    rewrite IH by (rewrite length_map, length_seq; reflexivity).
    apply map_ext_in. intros i Hi.
    rewrite (nth_places (fun i => nth i acc 0 + nth i (value X) 0) Hi).
    unfold coefficient_sum. ring.
Qed.

Lemma add_zero_scalar (v : list R) :
  length v = 32%nat -> np_add v (scalar_val 0) = v.
Proof.
  intros Hv. rewrite (np_add_places v (scalar_val 0) Hv eq_refl).
  transitivity (map (fun i => nth i v 0) (seq 0 32));
    [|symmetry; apply places_of_list, Hv].
  apply map_ext_in. intros i Hi.
  assert (E : nth i (scalar_val 0) 0 = 0).
  { unfold scalar_val, np_zeros. destruct i as [|i]; [reflexivity|].
    cbn [nth]. apply in_seq in Hi.
    rewrite nth_repeat_lt by lia. reflexivity. }
  rewrite E. ring.
Qed.

(** X9: in exact arithmetic, for every backend: the average of 32-entry
    objects does not depend on the order of the list. *)
Theorem average_objects_permutation (l l' : list (MultiVector R)) :
  Permutation l l' ->
  Forall (fun X => length (value X) = 32%nat) l ->
  average_objects l = average_objects l'.
Proof.
  intros Hperm Hall.
  assert (Hall' : Forall (fun X => length (value X) = 32%nat) l').
  { apply (Permutation_Forall Hperm Hall). }
  assert (Hlen : length l = length l') by (apply Permutation_length, Hperm).
  destruct l as [|X rest], l' as [|X' rest']; try discriminate Hlen;
    [reflexivity|].
  unfold average_objects.
  assert (E : forall Y tl, Forall (fun X => length (value X) = 32%nat)
                             (Y :: tl) ->
              value (fold_left mv_add tl (mv_add_scalar Y (of_Z 0)))
              = map (coefficient_sum (Y :: tl)) (seq 0 32)).
  { intros Y tl HY. inversion HY as [|? ? HY1 HY2]; subst.
    unfold mv_add_scalar. to_R. rewrite (add_zero_scalar _ HY1).
    rewrite (sum_of_objects (value Y) HY2 HY1). reflexivity. }
  unfold mv_div_scalar. rewrite (E X rest Hall), (E X' rest' Hall'), Hlen.
  rewrite (map_ext _ _ (fun i => coefficient_sum_perm i Hperm)).
  reflexivity.
Qed.

End ExactAverages.

Section Places.
Local Open Scope R_scope.

Lemma list32_ext (u w : list R) :
  length u = 32%nat -> length w = 32%nat ->
  (forall i, In i (seq 0 32) -> nth i u 0 = nth i w 0) -> u = w.
Proof.
  intros Hu Hw E.
  rewrite (places_of_list u Hu), (places_of_list w Hw).
  apply map_ext_in, E.
Qed.

Lemma nth_np_add (u w : list R) (i : nat) :
  length u = 32%nat -> length w = 32%nat -> In i (seq 0 32) ->
  nth i (np_add u w) 0 = nth i u 0 + nth i w 0.
Proof.
  intros Hu Hw Hi. rewrite (np_add_places u w Hu Hw).
  exact (nth_places (fun i => nth i u 0 + nth i w 0) Hi).
Qed.

Lemma np_add_length (u w : list R) :
  length u = 32%nat -> length w = 32%nat -> length (np_add u w) = 32%nat.
Proof.
  intros Hu Hw. rewrite (np_add_places u w Hu Hw).
  rewrite length_map, length_seq. reflexivity.
Qed.

Lemma np_scale_length (c : R) (u : list R) :
  length (np_scale c u) = length u.
Proof. unfold np_scale. apply length_map. Qed.

Lemma nth_scalar_val (a : R) (i : nat) :
  nth i (scalar_val a) 0 = if (i =? 0)%nat then a else 0.
Proof.
  unfold scalar_val, np_zeros. destruct i as [|i]; [reflexivity|].
  cbn [nth Nat.eqb].
  destruct (Nat.lt_ge_cases i 31) as [Hi|Hi].
  - rewrite nth_repeat_lt by exact Hi. reflexivity.
  - rewrite nth_overflow by (rewrite repeat_length; exact Hi). reflexivity.
Qed.

Lemma np_scale_scale (c d : R) (u : list R) :
  np_scale c (np_scale d u) = np_scale (c * d) u.
Proof.
  unfold np_scale. rewrite map_map. apply map_ext. intros x. to_R. ring.
Qed.

Lemma np_scale_one (u : list R) : np_scale 1 u = u.
Proof.
  unfold np_scale. rewrite <- (map_id u) at 2.
  apply map_ext. intros x. to_R. ring.
Qed.

End Places.

Section ExactLinear.
Context {L : Layout R} {laws : LayoutLaws L} {linear : LayoutLinear L}.
Local Open Scope R_scope.

Lemma one_plus_value (v : list R) :
  value (mv_add_scalar (MV v) (of_Z 1)) = np_add v (scalar_val 1).
Proof. reflexivity. Qed.

(** [(u + 1) * (w + 1) = u * w + u + w + 1] by places. *)
Lemma gmt_plus_one (u w : list R) (i : nat) :
  length u = 32%nat -> length w = 32%nat -> In i (seq 0 32) ->
  nth i (gmt_func (np_add u (scalar_val 1)) (np_add w (scalar_val 1))) 0
  = nth i (gmt_func u w) 0 + nth i u 0 + nth i w 0
    + nth i (scalar_val 1) 0.
Proof.
  intros Hu Hw Hi.
  pose proof (scalar_val_length 1) as H1.
  pose proof (np_add_length w (scalar_val 1) Hw H1) as Hw1.
  rewrite (gmt_add_l u (scalar_val 1) _ Hu H1).
  rewrite (gmt_add_r w (scalar_val 1) u Hw H1).
  rewrite (gmt_scalar_r 1 u Hu), (gmt_scalar_l 1 _ Hw1), !np_scale_one.
  rewrite nth_np_add; try assumption.
  2:{ apply np_add_length; [apply gmt_length|exact Hu]. }
  rewrite (nth_np_add (gmt_func u w) u); try assumption.
  2:{ apply gmt_length. }
  rewrite (nth_np_add w (scalar_val 1)); try assumption.
  ring.
Qed.

Lemma rotor_plus_one_sigma (r : list R) (t : R) :
  length r = 32%nat ->
  gmt_func r (adjoint_func r) = scalar_val 1 ->
  np_add r (adjoint_func r) = scalar_val t ->
  gmt_func (np_add r (scalar_val 1))
    (adjoint_func (np_add r (scalar_val 1)))
  = scalar_val (2 + t).
Proof.
  intros Hr Hunit Hsum.
  pose proof (adjoint_length r) as Ha.
  rewrite (adjoint_add r (scalar_val 1) Hr (scalar_val_length 1)).
  rewrite adjoint_scalar.
  apply list32_ext; [apply gmt_length|apply scalar_val_length|].
  intros i Hi. rewrite (gmt_plus_one r (adjoint_func r) Hr Ha Hi).
  rewrite Hunit.
  pose proof (nth_np_add r (adjoint_func r) Hr Ha Hi) as E.
  rewrite Hsum in E. rewrite !nth_scalar_val in *.
  destruct (i =? 0)%nat; lra.
Qed.

Lemma rotor_plus_one_mag2 (r : list R) (t : R) :
  length r = 32%nat ->
  gmt_func (adjoint_func r) r = scalar_val 1 ->
  np_add r (adjoint_func r) = scalar_val t ->
  gmt_func (adjoint_func (np_add r (scalar_val 1)))
    (np_add r (scalar_val 1))
  = scalar_val (2 + t).
Proof.
  intros Hr Hunit Hsum.
  pose proof (adjoint_length r) as Ha.
  rewrite (adjoint_add r (scalar_val 1) Hr (scalar_val_length 1)).
  rewrite adjoint_scalar.
  apply list32_ext; [apply gmt_length|apply scalar_val_length|].
  intros i Hi. rewrite (gmt_plus_one (adjoint_func r) r Ha Hr Hi).
  rewrite Hunit.
  pose proof (nth_np_add r (adjoint_func r) Hr Ha Hi) as E.
  rewrite Hsum in E. rewrite !nth_scalar_val in *.
  destruct (i =? 0)%nat; lra.
Qed.

(** [(~R + 1) * R = R + 1] for a rotor. *)
Lemma reverse_plus_one_times (r : list R) :
  length r = 32%nat ->
  gmt_func (adjoint_func r) r = scalar_val 1 ->
  gmt_func (np_add (adjoint_func r) (scalar_val 1)) r
  = np_add r (scalar_val 1).
Proof.
  intros Hr Hunit.
  pose proof (adjoint_length r) as Ha.
  pose proof (scalar_val_length 1) as H1.
  rewrite (gmt_add_l _ _ r Ha H1), Hunit, (gmt_scalar_l 1 r Hr), np_scale_one.
  apply list32_ext.
  - apply np_add_length; assumption.
  - apply np_add_length; assumption.
  - intros i Hi. rewrite !nth_np_add by assumption. ring.
Qed.

(** The positive root finder on [R + 1] for a rotor [R] whose sum with its
    reverse is the number [t]: one root, [(R + 1) / sqrt(2 + t)]. *)
Lemma rotor_plus_one_root (r : list R) (t : R) :
  length r = 32%nat ->
  gmt_func r (adjoint_func r) = scalar_val 1 ->
  gmt_func (adjoint_func r) r = scalar_val 1 ->
  -2 < t ->
  np_add r (adjoint_func r) = scalar_val t ->
  let C := mv_add_scalar (MV r) (of_Z 1) in
  pos_twiddle_root C = Ok [mv_normal C]
  /\ value (mv_normal C)
     = np_scale (/ sqrt (2 + t)) (np_add r (scalar_val 1)).
Proof.
  intros Hr Hunit Hunit' Ht Hsum C.
  pose proof (scalar_val_length 1) as H1.
  pose proof (np_add_length r (scalar_val 1) Hr H1) as Hc.
  assert (Hsig : value (twiddle_sigma false C) = scalar_val (2 + t)).
  { cbn [twiddle_sigma mv_mul mv_reverse value C mv_add_scalar]. to_R.
    apply (rotor_plus_one_sigma r Hr Hunit Hsum). }
  assert (Hmag : mv_mag2 C = 2 + t).
  { unfold mv_mag2, mv_getitem.
    cbn [mv_mul mv_reverse value C mv_add_scalar]. to_R.
    rewrite (rotor_plus_one_mag2 r Hr Hunit' Hsum). reflexivity. }
  split.
  - apply (twiddle_root_scalar_sigma false C (s := 2 + t)).
    + exact Hc.
    + exact Hsig.
    + lra.
    + rewrite Hmag. lra.
  - unfold mv_normal, mv_abs, mv_div_scalar. rewrite Hmag.
    cbn [value C mv_add_scalar]. to_R.
    rewrite (Rabs_pos_eq (2 + t)) by lra.
    apply np_div_scale.
Qed.

(** X10: in exact arithmetic, under the laws of the backend: for a simple
    rotor [R], [square_roots_of_rotor(R)] returns one root, and that root
    times itself is [R]. *)
Theorem square_roots_of_rotor_squares (R0 : MultiVector R) :
  simple_rotor R0 ->
  exists root,
    square_roots_of_rotor R0 = Ok [root] /\ mv_mul root root = R0.
Proof.
  intros (Hr & Hunit & Hunit' & t & Ht & Hsum).
  destruct R0 as [r]. cbn [value mv_mul mv_reverse mv_add] in *.
  pose proof (scalar_val_length 1) as H1.
  destruct (rotor_plus_one_root r Hr Hunit Hunit' Ht Hsum) as [Hroot Hval].
  set (C := mv_add_scalar (MV r) (of_Z 1)) in *.
  exists (mv_normal C). split; [exact Hroot|].
  unfold mv_mul. rewrite Hval.
  set (a := sqrt (2 + t)).
  assert (Ha : 0 < a) by (apply sqrt_lt_R0; lra).
  assert (Haa : a * a = 2 + t) by (apply sqrt_sqrt; lra).
  rewrite gmt_scale_l, gmt_scale_r.
  assert (Hcc : gmt_func (np_add r (scalar_val 1)) (np_add r (scalar_val 1))
                = np_scale (2 + t) r).
  { rewrite <- (reverse_plus_one_times r Hr Hunit') at 2.
    rewrite <- gmt_assoc.
    rewrite <- adjoint_scalar at 2.
    rewrite <- (adjoint_add r (scalar_val 1) Hr H1).
    rewrite (rotor_plus_one_sigma r Hr Hunit Hsum).
    apply (gmt_scalar_l _ r Hr). }
  rewrite Hcc, !np_scale_scale.
  replace (/ a * / a * (2 + t)) with 1 by (rewrite <- Haa; field; lra).
  rewrite np_scale_one. reflexivity.
Qed.

(** X11: in exact arithmetic, under the laws of the backend: interpolating
    between a valid object and itself returns [X.normal()] at every
    [alpha]. *)
Theorem interp_objects_root_same (X : MultiVector R) (alpha : R) :
  valid_object X ->
  interp_objects_root X X alpha = Ok (mv_normal X).
Proof.
  intros V. pose proof (neg_twiddle_root_valid V) as RX.
  destruct V as (Hlen & _ & Hm). destruct X as [v]. cbn [value] in *.
  unfold interp_objects_root, mv_add, mv_scale. cbn [value]. to_R.
  assert (E : np_add (np_scale alpha v) (np_scale (1 - alpha) v) = v).
  { apply list32_ext; [|exact Hlen|].
    - apply np_add_length; rewrite np_scale_length; exact Hlen.
    - intros i Hi.
      rewrite nth_np_add by (try rewrite np_scale_length; assumption).
      rewrite !nth_np_scale. ring. }
  rewrite E, RX. cbn [bind list_getitem nth_error].
  rewrite (normal_idem _ Hm). reflexivity.
Qed.

Lemma gmt_one_l (w : list R) :
  length w = 32%nat -> gmt_func (scalar_val 1) w = w.
Proof. intros Hw. rewrite (gmt_scalar_l 1 w Hw). apply np_scale_one. Qed.

Lemma gmt_one_r (w : list R) :
  length w = 32%nat -> gmt_func w (scalar_val 1) = w.
Proof. intros Hw. rewrite (gmt_scalar_r 1 w Hw). apply np_scale_one. Qed.

(** X13: in exact arithmetic, under the laws of the backend: for a rotor
    with [~R * R = 1], applying [R] and then [~R] returns the multivector
    one started from. *)
Theorem apply_rotor_undo (X R0 : MultiVector R) :
  length (value X) = 32%nat ->
  length (value R0) = 32%nat ->
  value (mv_mul (mv_reverse R0) R0) = scalar_val 1 ->
  apply_rotor (apply_rotor X R0) (mv_reverse R0) = X.
Proof.
  destruct X as [x], R0 as [r]. cbn [value mv_mul mv_reverse].
  intros Hx Hr Hunit.
  unfold apply_rotor, val_apply_rotor, mv_reverse. cbn [value]. f_equal.
  rewrite (adjoint_invol r Hr).
  rewrite (gmt_assoc r), <- (gmt_assoc (adjoint_func r) r).
  rewrite Hunit, (gmt_assoc x), Hunit.
  rewrite (gmt_one_r x Hx). apply (gmt_one_l x Hx).
Qed.

(** X14: in exact arithmetic, under the laws of the backend: for a rotor
    with [~R * R = 1], applying [R] to a product is the product of the
    results of applying [R] to each factor. *)
Theorem apply_rotor_product (A B R0 : MultiVector R) :
  value (mv_mul (mv_reverse R0) R0) = scalar_val 1 ->
  apply_rotor (mv_mul A B) R0
  = mv_mul (apply_rotor A R0) (apply_rotor B R0).
Proof.
  destruct A as [a], B as [b], R0 as [r]. cbn [value mv_mul mv_reverse].
  intros Hunit.
  unfold apply_rotor, val_apply_rotor, mv_mul. cbn [value]. f_equal.
  rewrite (gmt_assoc r (gmt_func a (adjoint_func r))).
  rewrite (gmt_assoc a (adjoint_func r)).
  rewrite <- (gmt_assoc (adjoint_func r) r), Hunit.
  rewrite (gmt_one_l _ (gmt_length b (adjoint_func r))).
  rewrite (gmt_assoc a b). reflexivity.
Qed.

End ExactLinear.

Section NormalisedPoints.
Context {L : Layout R}.
Hypothesis imt_homogeneous : forall (c : R) (u w : list R),
  imt_func (np_scale c u) w = np_scale c (imt_func u w).
Local Open Scope R_scope.

(** X12: in exact arithmetic, where the inner product is homogeneous in
    its left argument: [normalise_n_minus_1] raises [ZeroDivisionError]
    exactly when [(mv | ninf)[0]] is zero; otherwise its result has inner
    product -1 with [ninf], and normalising it again returns it
    unchanged. *)
Theorem normalise_n_minus_1_spec (mv : MultiVector R) :
  match normalise_n_minus_1 mv with
  | Ok r =>
      mv_getitem (mv_or mv ninf) 0 <> 0
      /\ mv_getitem (mv_or r ninf) 0 = -1
      /\ normalise_n_minus_1 r = Ok r
  | Raise e =>
      e = zero_einf_component /\ mv_getitem (mv_or mv ninf) 0 = 0
  end.
Proof.
  unfold normalise_n_minus_1.
  set (scale := mv_getitem (mv_or mv ninf) 0).
  cbn [equal R_equal]. to_R. unfold Reqb.
  destruct (Req_dec_T scale 0) as [E|Hs]; cbn [negb].
  - split; [reflexivity|exact E].
  - split; [exact Hs|].
    assert (Hv : value (mv_div_scalar (mv_neg mv) scale)
                 = np_scale (- / scale) (value mv)).
    { unfold mv_div_scalar, mv_neg, np_div, np_neg, np_scale. cbn [value].
      rewrite map_map. apply map_ext. intros x. to_R. field. exact Hs. }
    assert (Hone : mv_getitem (mv_or (mv_div_scalar (mv_neg mv) scale) ninf) 0
                   = -1).
    { unfold mv_getitem, mv_or. cbn [value]. rewrite Hv.
      rewrite imt_homogeneous. to_R. rewrite nth_np_scale.
      change (nth 0 (imt_func (value mv) (value ninf)) 0) with scale.
      field. exact Hs. }
    split; [exact Hone|].
    rewrite Hone.
    destruct (Req_dec_T (-1) 0) as [E|_]; [lra|]. cbn [negb].
    f_equal. destruct mv as [v].
    unfold mv_div_scalar, mv_neg, np_div, np_neg. cbn [value].
    f_equal. rewrite !map_map. apply map_ext. intros x. to_R.
    field. exact Hs.
Qed.

End NormalisedPoints.

Section RotorBetweenExact.
Context {L : Layout R} {laws : LayoutLaws L} {linear : LayoutLinear L}.
Local Open Scope R_scope.

(** X15: in exact arithmetic, under the laws of the backend: for a unit
    pair, [rotor_between_objects(C1, C2)] returns a rotor, and
    [apply_rotor] with it takes [C1] to [C2]. *)
Theorem rotor_between_objects_takes (C1 C2 : MultiVector R) :
  unit_pair C1 C2 ->
  exists rotor,
    rotor_between_objects C1 C2 = Ok rotor /\ apply_rotor C1 rotor = C2.
Proof.
  intros (H1 & H2 & Hs1 & Hs2 & Hrev & t & Ht & Hsum).
  destruct C1 as [c1], C2 as [c2].
  cbn [value mv_mul mv_reverse mv_add] in *.
  pose proof (scalar_val_length 1) as Hone.
  set (r := gmt_func c2 c1) in *.
  assert (Hr : length r = 32%nat) by apply gmt_length.
  assert (Hunit : gmt_func r (adjoint_func r) = scalar_val 1).
  { rewrite Hrev. unfold r.
    rewrite gmt_assoc, <- (gmt_assoc c1 c1 c2), Hs1, (gmt_one_l c2 H2).
    exact Hs2. }
  assert (Hunit' : gmt_func (adjoint_func r) r = scalar_val 1).
  { rewrite Hrev. unfold r.
    rewrite gmt_assoc, <- (gmt_assoc c2 c2 c1), Hs2, (gmt_one_l c1 H1).
    exact Hs1. }
  assert (Hsum' : np_add r (adjoint_func r) = scalar_val t)
    by (rewrite Hrev; exact Hsum).
  destruct (rotor_plus_one_root r Hr Hunit Hunit' Ht Hsum') as [Hroot Hval].
  set (C := mv_add_scalar (MV r) (of_Z 1)) in *.
  exists (mv_normal C). split.
  - unfold rotor_between_objects, mv_getitem. cbn [mv_mul value].
    rewrite Hs1. cbn [scalar_val nth]. to_R.
    rewrite (Rltb_true (x := 0) (y := 1)) by lra.
    change (mv_add_scalar (mv_mul (MV c2) (MV c1)) 1) with C.
    rewrite Hroot. reflexivity.
  - unfold apply_rotor, val_apply_rotor. cbn [value]. rewrite Hval. f_equal.
    set (a := sqrt (2 + t)).
    assert (Ha : 0 < a) by (apply sqrt_lt_R0; lra).
    assert (Haa : a * a = 2 + t) by (apply sqrt_sqrt; lra).
    pose proof (gmt_length c1 c2) as H12.
    rewrite adjoint_scale, gmt_scale_r, gmt_scale_l, gmt_scale_r,
      np_scale_scale.
    rewrite (adjoint_add r (scalar_val 1) Hr Hone), adjoint_scalar, Hrev.
    rewrite (gmt_add_r (gmt_func c1 c2) (scalar_val 1) c1 H12 Hone).
    rewrite <- gmt_assoc, Hs1, (gmt_one_l c2 H2), (gmt_one_r c1 H1).
    pose proof (np_add_length c2 c1 H2 H1) as H21.
    rewrite (gmt_add_l r (scalar_val 1) _ Hr Hone), (gmt_one_l _ H21).
    rewrite (gmt_add_r c2 c1 r H2 H1).
    assert (E1 : gmt_func r c1 = c2).
    { unfold r. rewrite gmt_assoc, Hs1. apply (gmt_one_r c2 H2). }
    assert (E2 : np_add (gmt_func r c2) c1 = np_scale t c2).
    { rewrite <- (gmt_scalar_l t c2 H2), <- Hsum.
      rewrite (gmt_add_l r (gmt_func c1 c2) c2 Hr H12).
      rewrite (gmt_assoc c1 c2 c2), Hs2, (gmt_one_r c1 H1). reflexivity. }
    rewrite E1.
    pose proof (gmt_length r c2) as Hg.
    pose proof (np_add_length _ _ Hg H2) as Hg2.
    apply list32_ext.
    + rewrite np_scale_length. apply np_add_length; assumption.
    + exact H2.
    + intros i Hi.
      pose proof (f_equal (fun v => nth i v 0) E2) as E. cbv beta in E.
      rewrite (nth_np_add _ _ Hg H1 Hi), nth_np_scale in E.
      rewrite nth_np_scale, (nth_np_add _ _ Hg2 H21 Hi).
      rewrite (nth_np_add _ _ Hg H2 Hi), (nth_np_add _ _ H2 H1 Hi).
      replace (nth i (gmt_func r c2) 0) with (t * nth i c2 0 - nth i c1 0)
        by lra.
      transitivity (/ a * / a * (2 + t) * nth i c2 0); [ring|].
      rewrite <- Haa. field. lra.
Qed.

End RotorBetweenExact.

(** ** The further laws on the G(4,1) kernels over the reals *)

Module G41Linear.
Import G41 G41R.
Local Open Scope R_scope.

Lemma gmt_length (u w : list R) : length (gmt u w) = 32%nat.
Proof. unfold gmt. rewrite length_map. reflexivity. Qed.

Lemma adjoint_length (u : list R) : length (adjoint u) = 32%nat.
Proof. unfold adjoint. rewrite length_map. reflexivity. Qed.

Lemma coef_add (u v : list R) (k : nat) :
  length u = 32%nat -> length v = 32%nat -> In k range ->
  coef (np_add u v) k = coef u k + coef v k.
Proof. intros Hu Hv Hk. apply nth_np_add; assumption. Qed.

Lemma add_tables (f g : nat -> R) (l : list nat) :
  np_add (map f l) (map g l) = map (fun k => f k + g k) l.
Proof.
  unfold np_add. induction l as [|x l IH]; [reflexivity|].
  cbn [map map2]. rewrite IH. reflexivity.
Qed.

Lemma gmt_add_l (u v w : list R) :
  length u = 32%nat -> length v = 32%nat ->
  gmt (np_add u v) w = np_add (gmt u w) (gmt v w).
Proof.
  intros Hu Hv. rewrite !gmt_entry, add_tables.
  apply map_ext_in. intros l Hl. unfold entry.
  rewrite <- bigsum_add. apply bigsum_ext. intros k Hk.
  rewrite (coef_add u v Hu Hv Hk). ring.
Qed.

Lemma gmt_add_r (u v w : list R) :
  length u = 32%nat -> length v = 32%nat ->
  gmt w (np_add u v) = np_add (gmt w u) (gmt w v).
Proof.
  intros Hu Hv. rewrite !gmt_entry, add_tables.
  apply map_ext_in. intros l Hl. unfold entry.
  rewrite <- bigsum_add. apply bigsum_ext. intros k Hk.
  destruct (anti_facts Hk Hl) as (_ & Hin & _).
  rewrite (coef_add u v Hu Hv Hin). ring.
Qed.

Lemma adjoint_add (u v : list R) :
  length u = 32%nat -> length v = 32%nat ->
  adjoint (np_add u v) = np_add (adjoint u) (adjoint v).
Proof.
  intros Hu Hv. rewrite !adjoint_entry, add_tables.
  apply map_ext_in. intros l Hl.
  rewrite (coef_add u v Hu Hv Hl). ring.
Qed.

Lemma rs_square (l : nat) : In l range -> IZR (rs l) * IZR (rs l) = 1.
Proof.
  intros Hl.
  assert (A : forallb (fun l => (rs l * rs l =? 1)%Z) range = true)
    by (vm_compute; reflexivity).
  rewrite forallb_forall in A. specialize (A l Hl). apply Z.eqb_eq in A.
  rewrite <- mult_IZR, A. reflexivity.
Qed.

Lemma adjoint_invol (u : list R) :
  length u = 32%nat -> adjoint (adjoint u) = u.
Proof.
  intros Hu. rewrite (table_of_list u Hu) at 2.
  rewrite (adjoint_entry (adjoint u)).
  apply map_ext_in. intros l Hl. rewrite (coef_adjoint u Hl).
  rewrite <- Rmult_assoc, (rs_square Hl). ring.
Qed.

Definition check_unit_r (l : nat) : bool :=
  (idx l l =? 0)%nat && (sg l 0 =? 1)%Z.

Lemma check_unit_r_all : forallb check_unit_r range = true.
Proof. vm_compute. reflexivity. Qed.

Lemma gmt_scalar_r (a : R) (w : list R) :
  length w = 32%nat -> gmt w (scalar_val a) = np_scale a w.
Proof.
  intros Hlen.
  rewrite (table_of_list w Hlen) at 2. rewrite scale_table, gmt_entry.
  apply map_ext_in. intros l Hl. unfold entry.
  pose proof check_unit_all as U. rewrite forallb_forall in U.
  specialize (U l Hl). unfold check_unit in U.
  apply andb_prop in U as [U1 _]. apply Nat.eqb_eq in U1.
  pose proof check_unit_r_all as V. rewrite forallb_forall in V.
  specialize (V l Hl). unfold check_unit_r in V.
  apply andb_prop in V as [V1 V2].
  apply Nat.eqb_eq in V1. apply Z.eqb_eq in V2.
  rewrite (bigsum_reindex _ (fun k => idx k l) range_NoDup).
  2:{ intros k Hk. destruct (anti_facts Hk Hl) as (E & Hin & _).
      split; assumption. }
  change range with (0%nat :: seq 1 31). rewrite bigsum_cons.
  rewrite (bigsum_ext _ (fun _ => 0)).
  - rewrite bigsum_zero, U1, V1, V2.
    unfold coef at 2. cbn [scalar_val nth]. ring.
  - intros k Hk. apply in_seq in Hk.
    assert (Hk' : In k range) by (apply in_seq; lia).
    destruct (anti_facts Hk' Hl) as (E & _ & _). rewrite E.
    destruct k as [|k]; [lia|]. rewrite coef_scalar_val. ring.
Qed.

(** An entry of a product kernel as a sum over the places it keeps. *)
Lemma fold_left_keep (p : nat -> bool) (f : nat -> R) (l : list nat)
    (a : R) :
  fold_left (fun acc k => if p k then acc + f k else acc) l a
  = a + bigsum (fun k => if p k then f k else 0) l.
Proof.
  revert a. induction l as [|x l IH]; intros a; cbn [fold_left].
  - rewrite bigsum_nil. ring.
  - rewrite IH, bigsum_cons. destruct (p x); ring.
Qed.

Lemma imt_scale_l (c : R) (u w : list R) :
  imt (np_scale c u) w = np_scale c (imt u w).
Proof.
  unfold imt. rewrite scale_table.
  apply map_ext_in. intros l Hl. unfold table_entry.
  rewrite !fold_left_keep. to_R.
  rewrite !Rplus_0_l, <- bigsum_scale.
  apply bigsum_ext. intros k _. rewrite coef_scale.
  match goal with |- context [if ?b then _ else _] => destruct b end; ring.
Qed.

#[export] Instance linear : LayoutLinear G41.layout := {
  gmt_length := gmt_length;
  adjoint_length := adjoint_length;
  gmt_add_l := gmt_add_l;
  gmt_add_r := gmt_add_r;
  adjoint_add := adjoint_add;
  gmt_scalar_r := gmt_scalar_r;
  adjoint_scalar := adjoint_scalar_val;
  adjoint_invol := adjoint_invol
}.

End G41Linear.

(** ** Conformal points on the G(4,1) table, in exact arithmetic *)

Tactic Notation "places" tactic3(tac) :=
  cbv -[Rplus Rmult Rminus Ropp Rdiv Rinv IZR sqrt sin cos PI];
  repeat (apply f_equal2; [tac|]); try reflexivity.

Section ConformalPoints.
Import G41.
#[local] Existing Instance G41.layout.
Local Open Scope R_scope.

Lemma euclidean_square (x y z : R) :
  gmt (euclidean x y z) (euclidean x y z)
  = scalar_val (x * x + y * y + z * z).
Proof. places ring. Qed.

Lemma val_up_places (x y z : R) :
  val_up (euclidean x y z)
  = vector_places x y z ((x * x + y * y + z * z - 1) / 2)
      ((x * x + y * y + z * z + 1) / 2).
Proof.
  unfold val_up.
  change (gmt_func (euclidean x y z) (euclidean x y z))
    with (gmt (euclidean x y z) (euclidean x y z)).
  rewrite euclidean_square.
  change (gmt_func (scalar_val ?a) ?w) with (gmt (scalar_val a) w).
  rewrite G41R.gmt_scalar_l by reflexivity.
  generalize (x * x + y * y + z * z). intros q.
  places field.
Qed.

Lemma vector_square (x y z u v : R) :
  gmt (vector_places x y z u v) (vector_places x y z u v)
  = scalar_val (x * x + y * y + z * z + u * u - v * v).
Proof. places ring. Qed.

Lemma vector_dot (x y z u v x' y' z' u' v' : R) :
  nth 0 (imt (vector_places x y z u v) (vector_places x' y' z' u' v')) 0
  = x * x' + y * y' + z * z' + u * u' - v * v'.
Proof. cbv -[Rplus Rmult Rminus Ropp Rdiv Rinv IZR]. ring. Qed.

Lemma ninf_places : value (ninf (K := R)) = vector_places 0 0 0 1 1.
Proof. places ring. Qed.

(** X16: on the G(4,1) table in exact arithmetic: [val_up] takes a
    Euclidean vector to a null vector whose inner product with [ninf] is
    -1, so [normalise_n_minus_1] returns it unchanged. *)
Theorem val_up_point (x y z : R) :
  let P := MV (val_up (euclidean x y z)) in
  mv_mul P P = MV (np_zeros 32)
  /\ mv_getitem (mv_or P ninf) 0 = -1
  /\ normalise_n_minus_1 P = Ok P.
Proof.
  cbv zeta.
  assert (Hdot : mv_getitem (mv_or (MV (val_up (euclidean x y z))) ninf) 0
                 = -1).
  { unfold mv_getitem, mv_or. cbn [value]. rewrite val_up_places, ninf_places.
    change (imt_func ?u ?w) with (imt u w). to_R.
    rewrite vector_dot. field. }
  split; [|split; [exact Hdot|]].
  - unfold mv_mul. cbn [value]. rewrite val_up_places.
    change (gmt_func ?u ?w) with (gmt u w). rewrite vector_square.
    f_equal. unfold scalar_val. change (np_zeros 32) with (0 :: np_zeros 31).
    f_equal. field.
  - unfold normalise_n_minus_1. rewrite Hdot.
    cbn [equal R_equal]. to_R. unfold Reqb.
    destruct (Req_dec_T (-1) 0) as [E|_]; [lra|]. cbn [negb].
    unfold mv_div_scalar, mv_neg, np_div, np_neg.
    cbn [value]. do 2 f_equal. rewrite map_map.
    rewrite <- (map_id (val_up (euclidean x y z))) at 2.
    apply map_ext. intros q. to_R. field.
Qed.

(** X17: on the G(4,1) table in exact arithmetic: [euc_dist] of the
    conformal points of two Euclidean vectors is the Euclidean distance of
    the vectors; so it is for two points of the plane made by
    [convert_2D_point_to_conformal]. *)
Theorem euc_dist_of_points (x y z x' y' z' : R) :
  euc_dist (MV (val_up (euclidean x y z))) (MV (val_up (euclidean x' y' z')))
  = Ok (sqrt ((x - x') * (x - x') + (y - y') * (y - y')
              + (z - z') * (z - z')))
  /\ euc_dist (convert_2D_point_to_conformal x y)
       (convert_2D_point_to_conformal x' y')
     = Ok (sqrt ((x - x') * (x - x') + (y - y') * (y - y'))).
Proof.
  assert (D : forall a b c a' b' c' : R,
             euc_dist (MV (val_up (euclidean a b c)))
               (MV (val_up (euclidean a' b' c')))
             = Ok (sqrt ((a - a') * (a - a') + (b - b') * (b - b')
                         + (c - c') * (c - c')))).
  { intros a b c a' b' c'.
    unfold euc_dist, mv_getitem, mv_or. cbn [value].
    rewrite !val_up_places. change (imt_func ?u ?w) with (imt u w). to_R.
    rewrite vector_dot.
    set (d2 := (a - a') * (a - a') + (b - b') * (b - b')
               + (c - c') * (c - c')).
    match goal with
    | |- context [Rltb ?e 0] => replace e with (- d2 / 2) by (unfold d2; field)
    end.
    assert (Hd : 0 <= d2).
    { pose proof (Rle_0_sqr (a - a')). pose proof (Rle_0_sqr (b - b')).
      pose proof (Rle_0_sqr (c - c')). unfold Rsqr in *. unfold d2. lra. }
    destruct (Rlt_dec (- d2 / 2) 0) as [Hneg|Hpos].
    - rewrite (Rltb_true Hneg).
      replace (-2 * (- d2 / 2)) with d2 by field.
      rewrite (Rltb_false (x := d2) (y := 0)) by lra. reflexivity.
    - rewrite (Rltb_false (x := - d2 / 2) (y := 0)) by lra.
      replace d2 with 0 by lra. rewrite sqrt_0. reflexivity. }
  split; [apply D|].
  change (convert_2D_point_to_conformal x y)
    with (MV (val_up (euclidean x y 0))).
  change (convert_2D_point_to_conformal x' y')
    with (MV (val_up (euclidean x' y' 0))).
  rewrite D. do 2 f_equal. ring.
Qed.

End ConformalPoints.

Section Translations.
Import G41.
#[local] Existing Instance G41.layout.
Local Open Scope R_scope.

Lemma translation_places (a b c : R) :
  value (generate_translation_rotor (MV (euclidean a b c)))
  = translator_places a b c.
Proof. places field. Qed.

Lemma translator_reverse (a b c : R) :
  adjoint (translator_places a b c) = translator_places (- a) (- b) (- c).
Proof. places field. Qed.

Lemma translator_product (a b c a' b' c' : R) :
  gmt (translator_places a b c) (translator_places a' b' c')
  = translator_places (a + a') (b + b') (c + c').
Proof. places field. Qed.

(** A conformal point times the reverse of a translator. *)
Lemma point_times_translator (x y z q a b c : R) :
  gmt (vector_places x y z ((q - 1) / 2) ((q + 1) / 2))
    (translator_places (- a) (- b) (- c))
  = [0; x + a / 2; y + b / 2; z + c / 2;
     (x * a + y * b + z * c + q - 1) / 2;
     (x * a + y * b + z * c + q + 1) / 2;
     0; 0; 0; 0; 0; 0; 0; 0; 0; 0; 0;
     (x * b - y * a) / 2; (x * b - y * a) / 2;
     (x * c - z * a) / 2; (x * c - z * a) / 2; a / 2;
     (y * c - z * b) / 2; (y * c - z * b) / 2; b / 2; c / 2]
    ++ np_zeros 6.
Proof. places field. Qed.

(** X18: on the G(4,1) table in exact arithmetic: [apply_rotor] with
    [generate_translation_rotor(t)] takes the conformal point of a vector
    [p] to the conformal point of [p + t]. *)
Theorem translation_rotor_translates (x y z a b c : R) :
  apply_rotor (MV (val_up (euclidean x y z)))
    (generate_translation_rotor (MV (euclidean a b c)))
  = MV (val_up (euclidean (x + a) (y + b) (z + c))).
Proof.
  unfold apply_rotor, val_apply_rotor.
  rewrite translation_places. cbn [value]. rewrite !val_up_places.
  cbn [gmt_func adjoint_func layout].
  rewrite translator_reverse, point_times_translator. f_equal.
  places field.
Qed.

(** X19: on the G(4,1) table in exact arithmetic: the product of two
    translation rotors is the translation rotor of the sum of their
    vectors, and the reverse of a translation rotor undoes it. *)
Theorem translation_rotor_compose (a b c a' b' c' : R) :
  mv_mul (generate_translation_rotor (MV (euclidean a b c)))
    (generate_translation_rotor (MV (euclidean a' b' c')))
  = generate_translation_rotor (MV (euclidean (a + a') (b + b') (c + c')))
  /\ mv_mul (mv_reverse (generate_translation_rotor (MV (euclidean a b c))))
       (generate_translation_rotor (MV (euclidean a b c)))
     = MV (scalar_val 1).
Proof.
  assert (E : forall T : MultiVector R, T = MV (value T))
    by (intros [v]; reflexivity).
  split.
  - rewrite (E (generate_translation_rotor
                  (MV (euclidean (a + a') (b + b') (c + c'))))).
    unfold mv_mul. rewrite !translation_places. f_equal.
    cbn [gmt_func layout]. apply translator_product.
  - unfold mv_mul, mv_reverse. cbn [value]. rewrite !translation_places.
    f_equal. cbn [gmt_func adjoint_func layout].
    rewrite translator_reverse, translator_product.
    places field.
Qed.

End Translations.

Section Spheres.
Import G41.
#[local] Existing Instance G41.layout.
Local Open Scope R_scope.

Lemma sphere_places (k x y z r : R) :
  value (mv_scale k (sphere_of x y z r))
  = dual_places k x y z
      ((x * x + y * y + z * z - 1) / 2 - r * r / 2)
      ((x * x + y * y + z * z + 1) / 2 - r * r / 2).
Proof.
  unfold sphere_of, mv_scale, mv_mul, mv_add. cbn [value].
  rewrite val_up_places.
  generalize (x * x + y * y + z * z). intros q.
  generalize (r * r / 2). intros rho.
  places field.
Qed.

Lemma dual_times_ninf (k x y z u v : R) :
  gmt (dual_places k x y z u v) ninf_val
  = np_zeros 16
    ++ [k * u - k * v; - (k * z); - (k * z); k * y; k * y; 0;
        - (k * x); - (k * x); 0; 0; 0; 0; 0; 0; 0; k * u - k * v].
Proof. places ring. Qed.

Lemma reflect_ninf (k x y z u v : R) :
  gmt (gmt (dual_places k x y z u v) ninf_val) (dual_places k x y z u v)
  = vector_places (2 * (k * k) * (v - u) * x) (2 * (k * k) * (v - u) * y)
      (2 * (k * k) * (v - u) * z)
      (k * k * (x * x + y * y + z * z - (v - u) * (v - u)))
      (k * k * (x * x + y * y + z * z + (v - u) * (v - u))).
Proof. rewrite dual_times_ninf. places ring. Qed.

(** A point at distance [r] from the centre lies on the sphere. *)
Lemma sphere_of_contains (x y z r px py pz : R) :
  (px - x) * (px - x) + (py - y) * (py - y) + (pz - z) * (pz - z) = r * r ->
  mv_xor (MV (val_up (euclidean px py pz))) (sphere_of x y z r)
  = MV (np_zeros 32).
Proof.
  intros Hr. unfold mv_xor. f_equal.
  rewrite <- (np_scale_one (value (sphere_of x y z r))).
  change (np_scale 1 (value (sphere_of x y z r)))
    with (value (mv_scale 1 (sphere_of x y z r))).
  rewrite sphere_places, val_up_places. cbn [value]. rewrite <- Hr.
  places field.
Qed.

(** X20: on the G(4,1) table in exact arithmetic: for every non-zero
    multiple of the sphere of centre [(x, y, z)] and radius [r],
    [get_center_from_sphere] followed by [normalise_n_minus_1] returns the
    conformal point of the centre. *)
Theorem center_of_sphere (k x y z r : R) :
  k <> 0 ->
  normalise_n_minus_1
    (get_center_from_sphere (mv_scale k (sphere_of x y z r)))
  = Ok (MV (val_up (euclidean x y z))).
Proof.
  intros Hk.
  assert (Hc : value (get_center_from_sphere
                        (mv_scale k (sphere_of x y z r)))
               = vector_places (2 * (k * k) * x) (2 * (k * k) * y)
                   (2 * (k * k) * z)
                   (k * k * (x * x + y * y + z * z - 1))
                   (k * k * (x * x + y * y + z * z + 1))).
  { unfold get_center_from_sphere, mv_mul. cbn [value].
    rewrite sphere_places. cbn [gmt_func layout].
    change (value ninf) with (ninf_val (K := R)).
    rewrite reflect_ninf.
    generalize (x * x + y * y + z * z). intros q.
    generalize (r * r / 2). intros rho.
    unfold vector_places. cbn [app]. entrywise field. }
  unfold normalise_n_minus_1, mv_getitem, mv_or.
  rewrite Hc, ninf_places. cbn [imt_func layout value]. to_R.
  rewrite vector_dot.
  match goal with
  | |- context [equal ?e _] => replace e with (-2 * (k * k)) by ring
  end.
  cbn [equal R_equal]. unfold Reqb.
  assert (Hkk : k * k <> 0) by (apply Rmult_integral_contrapositive; tauto).
  destruct (Req_dec_T _ 0) as [E|Hs]; [exfalso; apply Hkk; lra|].
  cbn [negb].
  unfold mv_div_scalar, mv_neg. cbn [value]. rewrite Hc, val_up_places.
  generalize (x * x + y * y + z * z). intros q.
  unfold vector_places, np_div, np_neg. cbn [app map np_zeros repeat]. to_R.
  do 2 f_equal. entrywise (field; assumption).
Qed.

End Spheres.

(** ** The exponential of a rotation bivector, in exact arithmetic *)

Section ExponentialOfRotation.
Import G41.
#[local] Existing Instance G41.layout.
#[local] Existing Instance R_libm.
Local Open Scope R_scope.

Lemma coef_zeros (n k : nat) : coef (np_zeros (K := R) n) k = 0.
Proof. unfold coef, np_zeros. apply nth_repeat. Qed.

Lemma gmt_zeros_l (w : list R) : gmt (np_zeros 32) w = np_zeros 32.
Proof.
  rewrite G41R.gmt_entry.
  change (np_zeros (K := R) 32) with (map (fun _ : nat => 0) range) at 2.
  apply map_ext_in. intros l _. unfold G41R.entry.
  rewrite (bigsum_ext _ (fun _ => 0)); [apply bigsum_zero|].
  intros k _. rewrite coef_zeros. ring.
Qed.

Lemma gmt_zeros_r (u : list R) : gmt u (np_zeros 32) = np_zeros 32.
Proof.
  rewrite G41R.gmt_entry.
  change (np_zeros (K := R) 32) with (map (fun _ : nat => 0) range) at 2.
  apply map_ext_in. intros l _. unfold G41R.entry.
  rewrite (bigsum_ext _ (fun _ => 0)); [apply bigsum_zero|].
  intros k _. rewrite coef_zeros. ring.
Qed.

Lemma imt_zeros_l (w : list R) : imt (np_zeros 32) w = np_zeros 32.
Proof.
  unfold imt.
  change (np_zeros (K := R) 32) with (map (fun _ : nat => 0) range) at 2.
  apply map_ext_in. intros l _. unfold table_entry.
  rewrite G41Linear.fold_left_keep. to_R.
  rewrite (bigsum_ext _ (fun _ => 0)); [rewrite bigsum_zero; ring|].
  intros k _. rewrite coef_zeros.
  match goal with |- context [if ?b then _ else _] => destruct b end; ring.
Qed.

Lemma rotation_inner_no (a b c : R) :
  imt (rotation_bivector a b c) no_val = np_zeros 32.
Proof. places field. Qed.

Lemma rotation_minus_zeros (a b c : R) :
  np_sub (rotation_bivector a b c) (np_zeros 32) = rotation_bivector a b c.
Proof. places ring. Qed.

Lemma zeros_minus_zeros :
  np_sub (np_zeros (K := R) 32) (np_zeros 32) = np_zeros 32.
Proof. places ring. Qed.

Lemma rotation_square (a b c : R) :
  gmt (rotation_bivector a b c) (rotation_bivector a b c)
  = scalar_val (- (a * a + b * b + c * c)).
Proof. places ring. Qed.

Lemma euler_unit (C s a b c : R) :
  gmt (euler_places C s a b c) (adjoint (euler_places C s a b c))
  = scalar_val (C * C + s * s * (a * a + b * b + c * c)).
Proof. places ring. Qed.

Lemma val_exp_places (a b c : R) :
  let phi := sqrt (a * a + b * b + c * c) in
  val_exp (rotation_bivector a b c)
  = Ok (euler_places (cos phi) (sin phi / phi) a b c).
Proof.
  cbv zeta. unfold val_exp. cbv zeta. unfold mult_with_ninf.
  cbn [gmt_func imt_func layout].
  rewrite rotation_inner_no, gmt_zeros_l, rotation_minus_zeros.
  rewrite rotation_square.
  cbn [getitem scalar_val nth_error bind]. to_R.
  rewrite Ropp_involutive.
  generalize (sqrt (a * a + b * b + c * c)). intros phi.
  rewrite imt_zeros_l, !gmt_zeros_l, zeros_minus_zeros, gmt_zeros_l.
  cbn [np_sin np_cos np_sinc np_pi R_libm].
  generalize (sin phi) (cos phi). intros S C.
  match goal with
  | |- context [np_scale ?s (np_zeros 32)] => generalize s
  end.
  intros s.
  cbv -[Rplus Rmult Rminus Ropp Rdiv Rinv IZR gmt].
  rewrite gmt_zeros_r.
  cbv -[Rplus Rmult Rminus Ropp Rinv IZR].
  f_equal. entrywise ring.
Qed.

Lemma euler_places_sum (C s a b c : R) :
  np_add (scalar_val C) (np_scale s (rotation_bivector a b c))
  = euler_places C s a b c.
Proof. places ring. Qed.

Lemma rotation_abs_sum (a b c : R) :
  np_sum (np_abs (rotation_bivector a b c)) = Rabs a + Rabs b + Rabs c.
Proof.
  cbv -[Rplus Rmult Rminus Ropp Rdiv Rinv IZR Rabs].
  rewrite Rabs_R0. ring.
Qed.

(** X21: on the G(4,1) table in exact arithmetic: for a rotation bivector
    [B = a e12 + b e13 + c e23] that passes the test on the sum of the
    absolute coefficients, [ga_exp(B)] is [cos(phi) + sin(phi)/phi B] with
    [phi = sqrt(a^2 + b^2 + c^2)], and it is a rotor: its product with its
    reverse is 1. *)
Theorem ga_exp_rotation (a b c : R) :
  finfo_eps <= Rabs a + Rabs b + Rabs c ->
  let phi := sqrt (a * a + b * b + c * c) in
  exists rotor,
    ga_exp (MV (rotation_bivector a b c)) = Ok (MV rotor)
    /\ rotor
       = np_add (scalar_val (cos phi))
           (np_scale (sin phi / phi) (rotation_bivector a b c))
    /\ gmt_func rotor (adjoint_func rotor) = scalar_val 1.
Proof.
  intros Heps phi.
  exists (euler_places (cos phi) (sin phi / phi) a b c).
  split; [|split].
  - unfold ga_exp. cbn [value]. rewrite rotation_abs_sum. to_R.
    rewrite (Rltb_false Heps).
    pose proof (val_exp_places a b c) as E. cbv zeta in E. fold phi in E.
    rewrite E. reflexivity.
  - symmetry. apply euler_places_sum.
  - cbn [gmt_func adjoint_func layout]. rewrite euler_unit. f_equal.
    set (q := a * a + b * b + c * c) in *.
    assert (Hq : 0 < q).
    { cbn [finfo_eps R_scalar] in Heps.
      assert (He : 0 < / 4503599627370496)
        by (apply Rinv_0_lt_compat; lra).
      pose proof (Rle_0_sqr a) as Ha. pose proof (Rle_0_sqr b) as Hb.
      pose proof (Rle_0_sqr c) as Hc. unfold Rsqr in *.
      destruct (Req_dec a 0) as [Ea|Na].
      - destruct (Req_dec b 0) as [Eb|Nb].
        + destruct (Req_dec c 0) as [Ec|Nc].
          * subst a b c. rewrite Rabs_R0 in Heps. lra.
          * pose proof (Rsqr_pos_lt c Nc) as P. unfold Rsqr in P.
            unfold q. lra.
        + pose proof (Rsqr_pos_lt b Nb) as P. unfold Rsqr in P.
          unfold q. lra.
      - pose proof (Rsqr_pos_lt a Na) as P. unfold Rsqr in P.
        unfold q. lra. }
    assert (Hphi : 0 < phi) by (apply sqrt_lt_R0; exact Hq).
    assert (Hpp : phi * phi = q) by (apply sqrt_sqrt; lra).
    pose proof (sin2_cos2 phi) as T. unfold Rsqr in T.
    rewrite <- Hpp.
    transitivity (sin phi * sin phi + cos phi * cos phi); [field; lra|].
    exact T.
Qed.

End ExponentialOfRotation.

(** * Runs of the further properties on the G(4,1) table *)

Section FurtherRuns.
Import Examples MoreExamples.
#[local] Existing Instance G41.layout.
#[local] Existing Instance G41R.laws.
#[local] Existing Instance G41Linear.linear.
#[local] Existing Instance R_libm.
Local Open Scope R_scope.

Lemma negative_radicand_raises_witness :
  dorst_norm_val (twiddle_sigma false negative_radicand) = Raise domain_error
  /\ twiddle_root false negative_radicand = Raise domain_error.
Proof.
  apply (negative_radicand_raises false negative_radicand).
  vm_compute. reflexivity.
Defined.

(** In the negative variant on [e1], [sigma = -1] and [dorst_norm = 1]:
    the test of Case A fails. *)
Lemma e1_R_sigma : value (twiddle_sigma true e1_R) = scalar_val (-1).
Proof.
  cbv -[Rplus Rmult Rminus Ropp Rdiv Rinv IZR]. entrywise ring.
Qed.

Lemma e1_R_case_a_fails :
  check_sigma_for_positive_root (twiddle_sigma true e1_R) = Ok false.
Proof.
  unfold check_sigma_for_positive_root.
  rewrite (dorst_norm_scalar _ e1_R_sigma), (getitem_scalar _ e1_R_sigma).
  cbn [bind]. to_R. rewrite (Rabs_left (-1)) by lra.
  rewrite (Rltb_false (x := 0) (y := -1 + - -1)) by lra. reflexivity.
Qed.

Lemma exact_single_root_witness :
  check_sigma_for_negative_root (twiddle_sigma true e1_R) = Ok false
  /\ check_infinite_roots (twiddle_sigma true e1_R) = Ok true
  /\ twiddle_root true e1_R = Ok [mv_normal e1_R].
Proof.
  exact (proj1 (exact_single_root true e1_R) e1_R_case_a_fails).
Defined.

Lemma interp_objects_root_swap_witness :
  interp_objects_root e5_R e1_R (/ 3)
  = interp_objects_root e1_R e5_R (1 - / 3).
Proof. apply (interp_objects_root_swap e5_R e1_R (/ 3)). reflexivity. Defined.

Lemma project_val_orthogonal_witness :
  exists out,
    project_val counting 2 = Ok out
    /\ project_val out 3 = Ok (np_zeros 32).
Proof.
  apply (project_val_orthogonal counting (g := 2) (h := 3));
    [reflexivity|lia|lia|discriminate].
Defined.

Lemma project_val_partition_witness :
  exists g,
    (0 <= g <= 5)%Z
    /\ forall h out,
         (0 <= h <= 5)%Z -> project_val counting h = Ok out ->
         nth 7 out (of_Z 0)
         = if (h =? g)%Z then nth 7 counting (of_Z 0) else of_Z 0.
Proof.
  apply (project_val_partition counting (i := 7)); [reflexivity|lia].
Defined.

Lemma project_val_is_grade_projection_witness :
  project_val (value e12_R) 2 = Ok (value (mv_grade e12_R 2)).
Proof.
  apply (project_val_is_grade_projection e12_R (g := 2)); [reflexivity|lia].
Defined.

Lemma average_objects_permutation_witness :
  average_objects [e5_R; e1_R] = average_objects [e1_R; e5_R].
Proof.
  apply (average_objects_permutation (l := [e5_R; e1_R])
           (l' := [e1_R; e5_R])).
  - apply perm_swap.
  - repeat constructor.
Defined.

Lemma e12_R_simple : simple_rotor e12_R.
Proof.
  split; [reflexivity|]. split; [places ring|]. split; [places ring|].
  exists 0. split; [lra|]. places ring.
Qed.

Lemma square_roots_of_rotor_squares_witness :
  exists root,
    square_roots_of_rotor e12_R = Ok [root] /\ mv_mul root root = e12_R.
Proof. exact (square_roots_of_rotor_squares e12_R_simple). Defined.

Lemma interp_objects_root_same_witness :
  interp_objects_root e5_R e5_R (/ 3) = Ok (mv_normal e5_R).
Proof. exact (interp_objects_root_same (/ 3) e5_R_valid). Defined.

Lemma normalise_n_minus_1_spec_witness :
  match normalise_n_minus_1 e5_R with
  | Ok r =>
      mv_getitem (mv_or e5_R ninf) 0 <> 0
      /\ mv_getitem (mv_or r ninf) 0 = -1
      /\ normalise_n_minus_1 r = Ok r
  | Raise e =>
      e = zero_einf_component /\ mv_getitem (mv_or e5_R ninf) 0 = 0
  end.
Proof.
  exact (normalise_n_minus_1_spec G41Linear.imt_scale_l e5_R).
Defined.

Lemma e12_R_unit : value (mv_mul (mv_reverse e12_R) e12_R) = scalar_val 1.
Proof. places ring. Qed.

Lemma apply_rotor_undo_witness :
  apply_rotor (apply_rotor e1_R e12_R) (mv_reverse e12_R) = e1_R.
Proof.
  apply (apply_rotor_undo e1_R e12_R); [reflexivity|reflexivity|].
  exact e12_R_unit.
Defined.

Lemma apply_rotor_product_witness :
  apply_rotor (mv_mul e1_R e5_R) e12_R
  = mv_mul (apply_rotor e1_R e12_R) (apply_rotor e5_R e12_R).
Proof. exact (apply_rotor_product e1_R e5_R e12_R e12_R_unit). Defined.

Lemma e1_e2_unit_pair : unit_pair e1_R e2_R.
Proof.
  split; [reflexivity|]. split; [reflexivity|].
  split; [places ring|]. split; [places ring|]. split; [places ring|].
  exists 0. split; [lra|]. places ring.
Qed.

Lemma rotor_between_objects_takes_witness :
  exists rotor,
    rotor_between_objects e1_R e2_R = Ok rotor
    /\ apply_rotor e1_R rotor = e2_R.
Proof. exact (rotor_between_objects_takes e1_e2_unit_pair). Defined.

Lemma center_of_sphere_witness :
  normalise_n_minus_1 (get_center_from_sphere (mv_scale 3 (sphere_of 1 2 3 5)))
  = Ok (MV (val_up (euclidean 1 2 3))).
Proof. apply (center_of_sphere (k := 3) 1 2 3 5). lra. Defined.

Lemma ga_exp_rotation_witness :
  let phi := sqrt (1 * 1 + 0 * 0 + 0 * 0) in
  exists rotor,
    ga_exp (MV (rotation_bivector 1 0 0)) = Ok (MV rotor)
    /\ rotor
       = np_add (scalar_val (cos phi))
           (np_scale (sin phi / phi) (rotation_bivector 1 0 0))
    /\ gmt_func rotor (adjoint_func rotor) = scalar_val 1.
Proof.
  apply (ga_exp_rotation 1 0 0).
  cbn [finfo_eps R_scalar]. rewrite Rabs_R1, Rabs_R0. lra.
Defined.

End FurtherRuns.
